(** * analysis.py: the noisy-line regression notebook

    An exact-arithmetic model of the five computing cells of [analysis.py]:
    slider controls, synthetic data, least-squares fit, Markdown report and
    Plotly figure.  Arrays and pandas columns are lists of reals; the numpy
    routines the notebook calls are written out over the reals, so rounding
    of binary64 arithmetic is not part of the model.  The theorems below
    are therefore about what does not depend on rounding: which cell
    returns and which raises, lengths, order and end points of the arrays,
    the draws the generator is asked for, the text of the report around
    its numbers and the structure of the figure.  The numbers the fit
    returns agree with the model only up to the rounding of [lstsq] and
    [corrcoef]. *)

From Stdlib Require Import Reals Lra Lia List ZArith String Ascii Bool.
From Stdlib Require Import DecimalString DecimalPos.
Import ListNotations.

Open Scope R_scope.

(** ** Failing computations

    A Python call either returns or raises; [None] is a raised exception
    (or, for a floating-point result, [nan]). *)

Notation "x <- e ;; k" :=
  (match e with Some x => k | None => None end)
  (at level 61, e at next level, right associativity).

(** ** numpy *)

Module np.

Definition sum (a : list R) : R := fold_right Rplus 0 a.

(** [a * b] on arrays of one shape. *)
Definition multiply (a b : list R) : list R :=
  map (fun p => fst p * snd p) (combine a b).

Definition dot (a b : list R) : R := sum (multiply a b).

Definition size (a : list R) : R := INR (List.length a).

Definition mean (a : list R) : R := sum a / size a.

Definition arange (num : nat) : list R := map INR (seq 0 num).

(** [y[-1] = stop]. *)
Fixpoint set_last (stop : R) (a : list R) : list R :=
  match a with
  | [] => []
  | [_] => [stop]
  | v :: rest => v :: set_last stop rest
  end.

(** [np.linspace(start, stop, num)] with [endpoint=True]:
    [arange(0, num) * step + start] where [step = (stop - start) / (num - 1)]
    (with a zero step numpy divides first and multiplies after), the last
    sample overwritten by [stop] when [num > 1]; for [num = 1] there is no
    step and the one sample is [start]. *)
Definition linspace (start stop : R) (num : nat) : list R :=
  let div := (num - 1)%nat in
  let delta := stop - start in
  let y := arange num in
  let y := if (0 <? div)%nat
           then let step := delta / INR div in
                if Req_EM_T step 0
                then map (fun v => v / INR div * delta) y
                else map (fun v => v * step) y
           else map (fun v => v * delta) y in
  let y := map (fun v => v + start) y in
  if (1 <? num)%nat then set_last stop y else y.

(** Division as the notebook meets it: a vanishing divisor gives no number.
    Wherever a divisor below can vanish the dividend vanishes with it
    ([0/0] is [nan]), or the quotient is at once multiplied by zero
    ([inf * 0] is [nan]). *)
Definition true_divide (a b : R) : option R :=
  if Req_EM_T b 0 then None else Some (a / b).

(** [np.polyfit(x, y, 1)]: the least-squares line through the points,
    highest power first.  numpy refuses an empty [x] and columns of different
    lengths, scales the columns of the Vandermonde matrix [[x, 1]] by their
    norms and hands the system to [lstsq].  A zero [x] column has norm [0]:
    the scaling yields [nan] and [lstsq] raises.  With both columns
    independent the solution is the one of the normal equations, written
    with Cramer's rule.  With [x] constant and non-zero the matrix has rank
    one and [lstsq] returns the solution of minimal norm in the scaled
    coordinates (numpy then only warns that the fit is poorly
    conditioned).  The model agrees with numpy on whether the call returns
    or raises; the two coefficients are those of exact arithmetic, which
    numpy's binary64 result only approximates. *)
Definition polyfit1 (x y : list R) : option (R * R) :=
  if (List.length x =? 0)%nat then None
  else if negb (List.length x =? List.length y)%nat then None
  else
    let n := size x in
    let sx := sum x in
    let sy := sum y in
    let sxx := dot x x in
    let sxy := dot x y in
    if Req_EM_T sxx 0 then None
    else
      let det := n * sxx - sx * sx in
      if Req_EM_T det 0
      then Some (sy / (2 * sx), sy / (2 * n))
      else Some ((n * sxy - sx * sy) / det, (sxx * sy - sx * sxy) / det).

(** [np.clip(a, a_min, a_max)]. *)
Definition clip (a a_min a_max : R) : R := Rmin (Rmax a a_min) a_max.

(** [np.corrcoef(x, y)[0, 1]]: the covariance matrix of the two rows
    (means removed, products summed, divided by [N - 1] with a non-positive
    count of degrees of freedom replaced by [0]), each entry divided by the
    standard deviations of its row and of its column, then clipped to
    [[-1, 1]].  Rows of different lengths cannot be stacked.  The value is
    that of exact arithmetic: on a constant column whose binary64 mean is
    rounded, numpy's deviations need not vanish and it may return a number
    where the model has none. *)
Definition corrcoef01 (x y : list R) : option R :=
  if negb (List.length x =? List.length y)%nat then None
  else
    avg_x <- true_divide (sum x) (size x) ;;
    avg_y <- true_divide (sum y) (size y) ;;
    let fact := size x - 1 in
    let fact := if Rle_dec fact 0 then 0 else fact in
    let X0 := map (fun v => v - avg_x) x in
    let X1 := map (fun v => v - avg_y) y in
    w <- true_divide 1 fact ;;
    let c00 := dot X0 X0 * w in
    let c01 := dot X0 X1 * w in
    let c11 := dot X1 X1 * w in
    let stddev0 := sqrt c00 in
    let stddev1 := sqrt c11 in
    c <- true_divide c01 stddev0 ;;
    c <- true_divide c stddev1 ;;
    Some (clip c (-1) 1).

End np.

(** ** numpy.random

    The bit generator behind [np.random.default_rng] and the sampler of
    standard normal deviates are library code; the notebook only relies on
    a generator being a state that is fixed by its seed and advanced by
    every draw. *)

Record BitGenerator : Type := {
  bitgen_state : Type;
  seed_state : Z -> bitgen_state;
  next_standard_normal : bitgen_state -> R * bitgen_state
}.

Module random.
Section Generator.
Variable G : BitGenerator.

(** [np.random.default_rng(seed)]. *)
Definition default_rng (seed : Z) : bitgen_state G := seed_state G seed.

Fixpoint standard_normal (rng : bitgen_state G) (size : nat)
  : list R * bitgen_state G :=
  match size with
  | O => ([], rng)
  | S k =>
      let (z, rng1) := next_standard_normal G rng in
      let (zs, rng2) := standard_normal rng1 k in
      (z :: zs, rng2)
  end.

(** [rng.normal(loc, scale, size)]: each sample is
    [loc + scale * standard_normal]; a negative [scale] is refused.  (numpy
    tests the sign bit and so refuses the float [-0.0] as well, a value the
    reals do not have and the slider, which starts at [0.0] and only adds,
    does not produce.) *)
Definition normal (rng : bitgen_state G) (loc scale : R) (size : nat)
  : option (list R * bitgen_state G) :=
  if Rlt_dec scale 0 then None
  else
    let (zs, rng') := standard_normal rng size in
    Some (map (fun z => loc + scale * z) zs, rng').

End Generator.
End random.

(** ** Cell 1: UI controls *)

(** [mo.ui.slider(start, stop, step=..., value=...)]. *)
Record slider (A : Type) : Type := {
  start : A;
  stop : A;
  step : A;
  value : A
}.
Arguments start {A} _.
Arguments stop {A} _.
Arguments step {A} _.
Arguments value {A} _.

Definition cell_controls : slider nat * slider R :=
  let sigma := {| start := 0; stop := 5; step := 0.1; value := 1.0 |} in
  let n := {| start := 50%nat; stop := 1000%nat; step := 50%nat;
              value := 300%nat |} in
  (n, sigma).

(** The widget only ever holds [start + k * step] within its range.  For
    the noise slider the values are those of exact arithmetic ([0.3], not
    the binary64 sum [0.30000000000000004]); what cell 2 needs of them is
    only that they are not negative. *)
Definition n_reachable (n : slider nat) : Prop :=
  start n = 50%nat /\ stop n = 1000%nat /\ step n = 50%nat /\
  exists k : nat, value n = (50 + k * 50)%nat /\ (value n <= 1000)%nat.

Definition sigma_reachable (sigma : slider R) : Prop :=
  start sigma = 0 /\ stop sigma = 5 /\ step sigma = 0.1 /\
  exists k : nat, value sigma = 0 + INR k * 0.1 /\ (k <= 50)%nat.

(** ** Cell 2: synthetic data *)

(** [pd.DataFrame({"x": x, "y": y})], the two columns the notebook reads
    back as [df["x"]] and [df["y"]]. *)
Record DataFrame : Type := {
  col_x : list R;
  col_y : list R
}.

(** pandas refuses columns of different lengths. *)
Definition make_DataFrame (x y : list R) : option DataFrame :=
  if (List.length x =? List.length y)%nat
  then Some {| col_x := x; col_y := y |}
  else None.

Section Notebook.
Variable G : BitGenerator.

(** The names the body of cell 2 binds, in order; [rng] is the generator
    as the draws leave it. *)
Record data_locals : Type := {
  rng : bitgen_state G;
  x : list R;
  eps : list R;
  y : list R;
  df : DataFrame
}.

(** [int(n.value)] and [float(sigma.value)] convert an int and a float to
    themselves; [size=x.shape] asks for as many deviates as [x] has
    samples. *)
Definition cell_data_body (n : slider nat) (sigma : slider R)
  : option data_locals :=
  let rng0 := random.default_rng G 42 in
  let x := np.linspace 0 10 (value n) in
  drawn <- random.normal G rng0 0 (value sigma) (List.length x) ;;
  let eps := fst drawn in
  let y := map (fun p => fst p + snd p)
               (combine (map (fun v => 2.5 * v + 5) x) eps) in
  df <- make_DataFrame x y ;;
  Some {| rng := snd drawn; x := x; eps := eps; y := y; df := df |}.

(** Cell 2 returns [df] (and the module [np]). *)
Definition cell_data (n : slider nat) (sigma : slider R) : option DataFrame :=
  option_map df (cell_data_body n sigma).

(** ** Cell 3: least-squares fit *)

Record FitResult : Type := {
  intercept : R;
  r : option R;
  slope : R;
  y_hat : list R
}.

Definition cell_fit (df : DataFrame) : option FitResult :=
  coeffs <- np.polyfit1 (col_x df) (col_y df) ;;
  let slope := fst coeffs in
  let intercept := snd coeffs in
  let r := np.corrcoef01 (col_x df) (col_y df) in
  let y_hat := map (fun v => slope * v + intercept) (col_x df) in
  Some {| intercept := intercept; r := r; slope := slope; y_hat := y_hat |}.

(** ** Cell 4: Markdown report *)

(** Nearest integer, ties to the even one: the rounding of Python's
    float formatting, which converts the exact value of the float. *)
Definition round_half_even (v : R) : Z :=
  let f := Zfloor v in
  let frac := v - IZR f in
  if Rlt_dec frac (1 / 2) then f
  else if Rlt_dec (1 / 2) frac then (f + 1)%Z
  else if Z.even f then f else (f + 1)%Z.

(** [str(m)] for an integer. *)
Definition str_int (m : Z) : string := NilZero.string_of_int (Z.to_int m).

Definition digit_char (k : Z) : ascii := ascii_of_nat (48 + Z.to_nat k).

(** The [prec] low decimal digits of [m], most significant first. *)
Fixpoint low_digits (prec : nat) (m : Z) : string :=
  match prec with
  | O => EmptyString
  | S k => (low_digits k (m / 10) ++ String (digit_char (m mod 10)) EmptyString)%string
  end.

(** The digits of a fixed-point rendering of [m / 10 ^ prec], [m >= 0]. *)
Definition fixed_digits (prec : nat) (m : Z) : string :=
  let ip := str_int (m / 10 ^ Z.of_nat prec) in
  match prec with
  | O => ip
  | S _ => (ip ++ "." ++ low_digits prec m)%string
  end.

(** [format(v, ".<prec>f")] for a finite float [v]: the sign of [v], then
    [|v|] rounded to [prec] decimals. *)
Definition format_fixed (prec : nat) (v : R) : string :=
  let m := round_half_even (Rabs v * 10 ^ prec) in
  ((if Rlt_dec v 0 then "-" else "") ++ fixed_digits prec m)%string.

(** A float that may be [nan]. *)
Definition format_float (prec : nat) (v : option R) : string :=
  match v with
  | Some v => format_fixed prec v
  | None => "nan"%string
  end.

(** The text of the f-string around its five replacement fields. *)
Definition report_markdown (slope_s intercept_s r_s n_s sigma_s : string)
  : string :=
  ("
### Relationship summary
- **Model**: $y = " ++ slope_s ++ "x + " ++ intercept_s ++ "$
- **Correlation**: $r = " ++ r_s ++ "$
- **Sample size**: **" ++ n_s ++ "**
- **Noise std (σ)**: **" ++ sigma_s ++ "**

_As σ increases, the points spread further from the line; correlation and the stability of the fitted slope typically decrease._
")%string.

(** The f-string handed to [mo.md]: [{slope:.2f}], [{intercept:.2f}],
    [{r:.3f}], [{n.value}] and [{sigma.value:.1f}]. *)
Definition cell_report (intercept : R) (n : slider nat) (r : option R)
    (sigma : slider R) (slope : R) : string :=
  report_markdown (format_fixed 2 slope) (format_fixed 2 intercept)
    (format_float 3 r) (str_int (Z.of_nat (value n)))
    (format_fixed 1 (value sigma)).

(** ** Cell 5: Plotly figure *)

Record Scatter : Type := {
  trace_x : list R;
  trace_y : list R;
  mode : string;
  name : string
}.

Record Legend : Type := {
  orientation : string;
  yanchor : string;
  legend_y : R;
  xanchor : string;
  legend_x : R
}.

Record Layout : Type := {
  title : option string;
  xaxis_title : option string;
  yaxis_title : option string;
  template : option string;
  legend : option Legend
}.

Record Figure : Type := {
  data : list Scatter;
  layout : Layout
}.

(** [go.Figure()]. *)
Definition new_Figure : Figure :=
  {| data := [];
     layout := {| title := None; xaxis_title := None; yaxis_title := None;
                  template := None; legend := None |} |}.

(** [fig.add_scatter(x=..., y=..., mode=..., name=...)] appends a trace. *)
Definition add_scatter (fig : Figure) (x y : list R) (mode name : string)
  : Figure :=
  {| data := data fig ++
             [{| trace_x := x; trace_y := y; mode := mode; name := name |}];
     layout := layout fig |}.

(** [fig.update_layout(...)] with the five keywords the notebook passes. *)
Definition update_layout (fig : Figure) (title xaxis_title yaxis_title
    template : string) (legend : Legend) : Figure :=
  {| data := data fig;
     layout := {| title := Some title; xaxis_title := Some xaxis_title;
                  yaxis_title := Some yaxis_title; template := Some template;
                  legend := Some legend |} |}.

Definition cell_plot (df : DataFrame) (y_hat : list R) : Figure :=
  let fig := new_Figure in
  let fig := add_scatter fig (col_x df) (col_y df) "markers" "observations" in
  let fig := add_scatter fig (col_x df) y_hat "lines" "fit" in
  let fig :=
    update_layout fig
      "Linear relationship with controllable noise" "x" "y" "plotly_white"
      {| orientation := "h"; yanchor := "bottom"; legend_y := 1.02;
         xanchor := "right"; legend_x := 1 |} in
  fig.

(** ** The reactive session

    The runtime re-executes the cells that depend on a control, in
    dependency order, whenever the control changes; a cell that raises
    stops the cycle and its dependents are not run. *)

Record Outputs : Type := {
  out_df : DataFrame;
  out_fit : FitResult;
  out_report : string;
  out_fig : Figure
}.

Definition recompute (n : slider nat) (sigma : slider R) : option Outputs :=
  df <- cell_data n sigma ;;
  fit <- cell_fit df ;;
  let report := cell_report (intercept fit) n (r fit) sigma (slope fit) in
  let fig := cell_plot df (y_hat fit) in
  Some {| out_df := df; out_fit := fit; out_report := report;
          out_fig := fig |}.

(** The two controls, the names cell 2 bound when it last ran, what the
    user sees, and two counters kept for the statements below: how often
    cell 2 has run and how many normal deviates have been drawn since the
    program started. *)
Record Session : Type := {
  ui_n : slider nat;
  ui_sigma : slider R;
  cell2 : option data_locals;
  shown : option Outputs;
  executions : nat;
  draws : nat
}.

Definition run_cells (n : slider nat) (sigma : slider R) (executions draws : nat)
  : Session :=
  let locals := cell_data_body n sigma in
  {| ui_n := n; ui_sigma := sigma;
     cell2 := locals;
     shown := recompute n sigma;
     executions := S executions;
     draws := draws + match locals with
                      | Some l => List.length (eps l)
                      | None => 0
                      end |}.

Definition set_value {A : Type} (s : slider A) (v : A) : slider A :=
  {| start := start s; stop := stop s; step := step s; value := v |}.

(** A slider dragged to its [k]-th notch, or a manual re-run. *)
Inductive event : Type :=
| MoveSigma (k : nat)
| MoveN (k : nat)
| Rerun.

Definition handle (s : Session) (e : event) : Session :=
  match e with
  | MoveSigma k =>
      if (k <=? 50)%nat
      then run_cells (ui_n s)
             (set_value (ui_sigma s) (start (ui_sigma s) + INR k * step (ui_sigma s)))
             (executions s) (draws s)
      else s
  | MoveN k =>
      if (k <=? 19)%nat
      then run_cells
             (set_value (ui_n s) (start (ui_n s) + k * step (ui_n s))%nat)
             (ui_sigma s) (executions s) (draws s)
      else s
  | Rerun => run_cells (ui_n s) (ui_sigma s) (executions s) (draws s)
  end.

(** [app.run()]: every cell runs once with the sliders at their defaults.
    This is the session once the runtime has loaded the notebook; how
    marimo builds the application object and hands [mo] to the cells is
    not part of the model. *)
Definition app_run : Session :=
  run_cells (fst cell_controls) (snd cell_controls) 0 0.

Definition replay (history : list event) : Session :=
  fold_left handle history app_run.

End Notebook.

Arguments rng {G} _.
Arguments x {G} _.
Arguments eps {G} _.
Arguments y {G} _.
Arguments df {G} _.
Arguments ui_n {G} _.
Arguments ui_sigma {G} _.
Arguments cell2 {G} _.
Arguments shown {G} _.
Arguments executions {G} _.
Arguments draws {G} _.

(** A generator to run the model on: seeded with [s], its deviates are
    [s], [s + 1], [s + 2], ... *)
Definition counting_bitgen : BitGenerator :=
  {| bitgen_state := nat;
     seed_state := Z.to_nat;
     next_standard_normal := fun s => (INR s, S s) |}.

(** ** Textbook definitions the fit is compared with *)

Module stats.

(** The residuals [y_i - (a * x_i + b)] of the line [a * x + b]. *)
Definition residuals (x y : list R) (a b : R) : list R :=
  map (fun p => snd p - (a * fst p + b)) (combine x y).

(** Sum of squared residuals. *)
Definition SSR (x y : list R) (a b : R) : R :=
  np.dot (residuals x y a b) (residuals x y a b).

(** The normal equations of the degree-1 least-squares problem. *)
Definition normal_equations (x y : list R) (a b : R) : Prop :=
  a * np.dot x x + b * np.sum x = np.dot x y /\
  a * np.sum x + b * np.size x = np.sum y.

Definition minimizes_SSR (x y : list R) (a b : R) : Prop :=
  forall a' b' : R, SSR x y a b <= SSR x y a' b'.

Definition centered (a : list R) : list R :=
  map (fun v => v - np.mean a) a.

(** Pearson's correlation coefficient
    [sum (x_i - mx)(y_i - my) / sqrt (sum (x_i - mx)^2 * sum (y_i - my)^2)],
    undefined when the denominator vanishes. *)
Definition pearson (x y : list R) : option R :=
  let sxy := np.dot (centered x) (centered y) in
  let sxx := np.dot (centered x) (centered x) in
  let syy := np.dot (centered y) (centered y) in
  np.true_divide sxy (sqrt (sxx * syy)).

(** A column without two distinct values. *)
Definition all_identical (x : list R) : Prop :=
  forall u v : R, In u x -> In v x -> u = v.

Definition degenerate (x : list R) : Prop :=
  (List.length x < 2)%nat \/ all_identical x.

End stats.

(** ** Numerals *)

Module numerals.

Definition is_digit (c : ascii) : bool :=
  ((48 <=? nat_of_ascii c) && (nat_of_ascii c <=? 57))%nat.

Fixpoint all_digits (s : string) : bool :=
  match s with
  | EmptyString => true
  | String c rest => is_digit c && all_digits rest
  end.

(** The integer a string of digits denotes. *)
Fixpoint digits_value_from (acc : Z) (s : string) : Z :=
  match s with
  | EmptyString => acc
  | String c rest =>
      digits_value_from (10 * acc + (Z.of_nat (nat_of_ascii c) - 48))%Z rest
  end.

Definition digits_value (s : string) : Z := digits_value_from 0 s.

(** [s] is [v] written with exactly [prec] decimals: an optional minus
    sign (present exactly when [v] is negative), at least one digit, a
    point and [prec] digits, and the number so written is within half a
    unit of its last place of [|v|]. *)
Definition renders (prec : nat) (v : R) (s : string) : Prop :=
  exists ip fp : string,
    s = ((if Rlt_dec v 0 then "-" else "") ++ ip ++ "." ++ fp)%string /\
    ip <> EmptyString /\ all_digits ip = true /\
    all_digits fp = true /\ String.length fp = prec /\
    Rabs (IZR (digits_value (ip ++ fp)) - Rabs v * 10 ^ prec) <= 1 / 2.

Definition substring (sub s : string) : Prop :=
  exists pre post : string, s = (pre ++ sub ++ post)%string.

(** The rounding of [round_half_even] on a fraction of integers. *)
Definition round_half_even_ratio (p q : Z) : Z :=
  let f := (p / q)%Z in
  let rem := (p mod q)%Z in
  if (2 * rem <? q)%Z then f
  else if (q <? 2 * rem)%Z then (f + 1)%Z
  else if Z.even f then f else (f + 1)%Z.

(** [format_fixed] on a fraction of integers, by integer arithmetic. *)
Definition format_fixed_ratio (prec : nat) (p q : Z) : string :=
  ((if (p <? 0)%Z then "-" else "")
   ++ fixed_digits prec
        (round_half_even_ratio (Z.abs p * 10 ^ Z.of_nat prec) q))%string.

End numerals.

(** ** Notions used in the statements about sessions *)

Section SessionNotions.
Variable G : BitGenerator.

(** The standard normal deviates cell 2 consumes: the first [n] of a
    generator fresh from seed 42. *)
Definition deviates (n : slider nat) : list R :=
  fst (random.standard_normal G (random.default_rng G 42) (value n)).

(** The noise vector [eps] that the last execution of cell 2 drew. *)
Definition noise_of_run (s : Session G) : option (list R) :=
  option_map eps (cell2 s).

Definition same_controls (s1 s2 : Session G) : Prop :=
  value (ui_n s1) = value (ui_n s2) /\
  value (ui_sigma s1) = value (ui_sigma s2).

(** Reproducibility that would hinge on the history of draws: equal
    noise only in sessions that ran cell 2 equally often and drew equally
    many deviates. *)
Definition reproducible_only_with_equal_draw_history : Prop :=
  forall h1 h2 : list event,
    same_controls (replay G h1) (replay G h2) ->
    noise_of_run (replay G h1) = noise_of_run (replay G h2) ->
    executions (replay G h1) = executions (replay G h2) /\
    draws (replay G h1) = draws (replay G h2).

(** What holds of a session after any history (shown below): both sliders
    sit on one of their notches, and the names of cell 2 and the outputs
    on display are those of one cycle run at the values the sliders hold
    now. *)
Definition session_ok (s : Session G) : Prop :=
  n_reachable (ui_n s) /\ sigma_reachable (ui_sigma s) /\
  cell2 s = cell_data_body G (ui_n s) (ui_sigma s) /\
  shown s = recompute G (ui_n s) (ui_sigma s) /\
  (1 <= executions s)%nat.

End SessionNotions.

Arguments noise_of_run {G} _.
Arguments same_controls {G} _ _.
Arguments session_ok {G} _.

(** [2.5 * x + 5 + eps] on columns. *)
Definition line_plus (xs es : list R) : list R :=
  map (fun p => fst p + snd p) (combine (map (fun v => 2.5 * v + 5) xs) es).

(** The digits of a string in their order, every other character
    dropped. *)
Fixpoint keep_digits (s : string) : string :=
  match s with
  | EmptyString => EmptyString
  | String c rest =>
      if numerals.is_digit c then String c (keep_digits rest)
      else keep_digits rest
  end.

(** * Properties *)

(** ** Sums over columns *)

Module np_facts.
Import np stats.

Lemma sum_cons (a : R) (l : list R) : sum (a :: l) = a + sum l.
Proof. reflexivity. Qed.

Lemma size_cons (a : R) (l : list R) : size (a :: l) = size l + 1.
Proof. unfold size. cbn [List.length]. now rewrite S_INR. Qed.

Lemma size_nil : size [] = 0.
Proof. reflexivity. Qed.

Lemma size_nonneg (l : list R) : 0 <= size l.
Proof. apply pos_INR. Qed.

Lemma dot_cons (a b : R) (x y : list R) :
  dot (a :: x) (b :: y) = a * b + dot x y.
Proof. reflexivity. Qed.

Lemma dot_nil_l (y : list R) : dot [] y = 0.
Proof. reflexivity. Qed.

Lemma dot_nil_r (x : list R) : dot x [] = 0.
Proof. destruct x; reflexivity. Qed.

Lemma dot_self_nonneg (a : list R) : 0 <= dot a a.
Proof.
  induction a as [|v a IH]; [rewrite dot_nil_l; lra|].
  rewrite dot_cons. nra.
Qed.

Lemma dot_self_zero (a : list R) : dot a a = 0 -> Forall (fun v => v = 0) a.
Proof.
  induction a as [|v a IH]; intros H; [constructor|].
  rewrite dot_cons in H.
  pose proof (dot_self_nonneg a) as Hn.
  assert (Hv : v * v = 0) by nra.
  constructor; [nra | apply IH; nra].
Qed.

(** Products of two shifted columns, in terms of the raw sums. *)
Lemma dot_shift (a b : R) (x y : list R) :
  List.length x = List.length y ->
  dot (map (fun v => v - a) x) (map (fun v => v - b) y)
  = dot x y - a * sum y - b * sum x + size x * (a * b).
Proof.
  revert y; induction x as [|u x IH]; intros [|w y] Hlen; try discriminate.
  - cbn. unfold size; cbn. lra.
  - cbn [map]. rewrite !dot_cons, !sum_cons, size_cons.
    rewrite IH by (cbn in Hlen; lia). ring.
Qed.

Lemma SSR_cons (u w : R) (x y : list R) (a b : R) :
  SSR (u :: x) (w :: y) a b
  = (w - (a * u + b)) * (w - (a * u + b)) + SSR x y a b.
Proof. reflexivity. Qed.

Lemma SSR_expand (x y : list R) (a b : R) :
  List.length x = List.length y ->
  SSR x y a b
  = dot y y - 2 * a * dot x y - 2 * b * sum y
    + a * a * dot x x + 2 * a * b * sum x + b * b * size x.
Proof.
  revert y; induction x as [|u x IH]; intros [|w y] Hlen; try discriminate.
  - cbn. unfold size; cbn. lra.
  - rewrite SSR_cons, !dot_cons, !sum_cons, size_cons.
    rewrite IH by (cbn in Hlen; lia). ring.
Qed.

End np_facts.

Module linspace_facts.
Import np.

Lemma set_last_length (v : R) (a : list R) :
  List.length (set_last v a) = List.length a.
Proof.
  induction a as [|u [|w a] IH]; cbn in *; congruence.
Qed.

Lemma nth_set_last (v d : R) (a : list R) (i : nat) :
  (i < List.length a)%nat ->
  nth i (set_last v a) d
  = if (S i =? List.length a)%nat then v else nth i a d.
Proof.
  revert i; induction a as [|u a IH]; intros i Hi; [cbn in Hi; lia|].
  destruct a as [|w a].
  - cbn in Hi. assert (i = 0%nat) as -> by lia. reflexivity.
  - destruct i as [|i].
    + reflexivity.
    + change (set_last v (u :: w :: a)) with (u :: set_last v (w :: a)).
      cbn [nth]. rewrite IH by (cbn in *; lia). reflexivity.
Qed.

Lemma arange_length (num : nat) : List.length (arange num) = num.
Proof. unfold arange. now rewrite length_map, length_seq. Qed.

Lemma nth_arange (num i : nat) (d : R) :
  (i < num)%nat -> nth i (arange num) d = INR i.
Proof.
  intros Hi. unfold arange.
  rewrite (nth_indep _ d (INR 0)) by now rewrite length_map, length_seq.
  rewrite map_nth, seq_nth by assumption. reflexivity.
Qed.

Lemma linspace_length (a b : R) (num : nat) :
  List.length (linspace a b num) = num.
Proof.
  unfold linspace.
  destruct (1 <? num)%nat; [rewrite set_last_length|];
    destruct (0 <? num - 1)%nat; try destruct (Req_EM_T _ 0);
    now rewrite !length_map, arange_length.
Qed.

Lemma nth_map_default {A B : Type} (f : A -> B) (l : list A) (i : nat)
    (d : B) (d' : A) :
  (i < List.length l)%nat -> nth i (map f l) d = f (nth i l d').
Proof.
  intros Hi. rewrite (nth_indep _ d (f d')) by now rewrite length_map.
  apply map_nth.
Qed.

(** From two samples on, the [i]-th sample is [start + i * step]. *)
Lemma nth_linspace (a b d : R) (num i : nat) :
  (2 <= num)%nat -> (i < num)%nat ->
  nth i (linspace a b num) d = a + INR i * ((b - a) / INR (num - 1)).
Proof.
  intros Hnum Hi. unfold linspace.
  assert (H1 : (1 <? num)%nat = true) by (apply Nat.ltb_lt; lia).
  assert (H0 : (0 <? num - 1)%nat = true) by (apply Nat.ltb_lt; lia).
  rewrite H1, H0.
  assert (Hpos : 0 < INR (num - 1)) by (apply lt_0_INR; lia).
  destruct (Req_EM_T ((b - a) / INR (num - 1)) 0) as [Hz|Hz];
    rewrite nth_set_last by (now rewrite !length_map, arange_length);
    rewrite !length_map, arange_length;
    (destruct (S i =? num)%nat eqn:E;
     [ apply Nat.eqb_eq in E;
       replace (num - 1)%nat with i by lia;
       replace (num - 1)%nat with i in Hpos by lia;
       field; lra
     | rewrite (nth_map_default _ _ _ d 0)
         by (now rewrite length_map, arange_length);
       rewrite (nth_map_default _ _ _ 0 0) by (now rewrite arange_length);
       rewrite nth_arange by assumption; field; lra ]).
Qed.

Lemma linspace_first (d : R) (num : nat) :
  (2 <= num)%nat -> nth 0 (linspace 0 10 num) d = 0.
Proof.
  intros H. rewrite nth_linspace by lia. cbn [INR]. ring.
Qed.

Lemma linspace_last (d : R) (num : nat) :
  (2 <= num)%nat -> nth (num - 1) (linspace 0 10 num) d = 10.
Proof.
  intros H. rewrite nth_linspace by lia.
  assert (Hpos : 0 < INR (num - 1)) by (apply lt_0_INR; lia).
  field. lra.
Qed.

Lemma linspace_monotone (d : R) (num i j : nat) :
  (2 <= num)%nat -> (i <= j)%nat -> (j < num)%nat ->
  nth i (linspace 0 10 num) d <= nth j (linspace 0 10 num) d.
Proof.
  intros H Hij Hj. rewrite !nth_linspace by lia.
  assert (Hpos : 0 < INR (num - 1)) by (apply lt_0_INR; lia).
  assert (Hle : INR i <= INR j) by (apply le_INR; lia).
  assert (Hstep : 0 < (10 - 0) / INR (num - 1)).
  { apply Rdiv_lt_0_compat; lra. }
  nra.
Qed.

End linspace_facts.

Module fit_facts.
Import np stats np_facts.

Lemma quadratic_form (x : list R) (a b : R) :
  dot (map (fun v => a * v + b) x) (map (fun v => a * v + b) x)
  = a * a * dot x x + 2 * a * b * sum x + b * b * size x.
Proof.
  induction x as [|u x IH].
  - cbn. unfold size; cbn. lra.
  - cbn [map]. rewrite !dot_cons, sum_cons, size_cons, IH. ring.
Qed.

(** A line that satisfies the normal equations has the least sum of
    squared residuals. *)
Lemma normal_equations_minimize (x y : list R) (a b : R) :
  List.length x = List.length y ->
  normal_equations x y a b -> minimizes_SSR x y a b.
Proof.
  intros Hlen [H1 H2] a' b'.
  rewrite !SSR_expand by assumption.
  pose proof (dot_self_nonneg (map (fun v => (a' - a) * v + (b' - b)) x)) as Hq.
  rewrite quadratic_form in Hq.
  nra.
Qed.

Lemma sum_const (c : R) (x : list R) :
  Forall (fun v => v = c) x -> sum x = c * size x.
Proof.
  induction 1 as [|u x Hu _ IH].
  - cbn. unfold size; cbn. lra.
  - rewrite sum_cons, size_cons, IH, Hu. ring.
Qed.

Lemma dot_const_l (c : R) (x y : list R) :
  List.length x = List.length y ->
  Forall (fun v => v = c) x -> dot x y = c * sum y.
Proof.
  intros Hlen Hall; revert y Hlen.
  induction Hall as [|u x Hu _ IH]; intros [|w y] Hlen; try discriminate.
  - cbn. lra.
  - rewrite dot_cons, sum_cons, IH, Hu by (cbn in Hlen; lia). ring.
Qed.

(** [N] times the centred sum of squares is the determinant of the normal
    equations. *)
Lemma det_centered (x : list R) :
  x <> [] ->
  size x * dot (centered x) (centered x)
  = size x * dot x x - sum x * sum x.
Proof.
  intros Hx. unfold centered, mean.
  rewrite dot_shift by reflexivity.
  assert (Hn : size x <> 0).
  { destruct x as [|u x']; [congruence|]. rewrite size_cons.
    pose proof (size_nonneg x'). lra. }
  field. exact Hn.
Qed.

Lemma centered_zero_const (x : list R) :
  dot (centered x) (centered x) = 0 -> Forall (fun v => v = mean x) x.
Proof.
  intros H. apply dot_self_zero in H. unfold centered in H.
  rewrite Forall_map in H.
  eapply Forall_impl; [|exact H]. cbn. intros v Hv. lra.
Qed.

Lemma size_pos (x : list R) : x <> [] -> 0 < size x.
Proof.
  destruct x as [|u x']; [congruence|]. intros _. rewrite size_cons.
  pose proof (size_nonneg x'). lra.
Qed.

Lemma det_zero_const (x : list R) :
  x <> [] ->
  size x * dot x x - sum x * sum x = 0 ->
  Forall (fun v => v = mean x) x.
Proof.
  intros Hx Hdet. rewrite <- det_centered in Hdet by assumption.
  apply centered_zero_const.
  pose proof (size_pos x Hx). nra.
Qed.

Lemma length_zero_nil {A : Type} (l : list A) :
  (List.length l =? 0)%nat = false -> l <> [].
Proof. destruct l; [discriminate | congruence]. Qed.

(** Whatever [polyfit1] returns solves the normal equations. *)
Lemma polyfit1_normal_equations (x y : list R) (a b : R) :
  polyfit1 x y = Some (a, b) ->
  List.length x = List.length y /\ normal_equations x y a b.
Proof.
  unfold polyfit1.
  destruct (List.length x =? 0)%nat eqn:E0; [discriminate|].
  destruct (List.length x =? List.length y)%nat eqn:El; cbn [negb];
    [|discriminate].
  apply Nat.eqb_eq in El. apply length_zero_nil in E0.
  destruct (Req_dec_T (dot x x) 0) as [|Hxx]; [discriminate|].
  pose proof (size_pos x E0) as Hn.
  destruct (Req_dec_T _ 0) as [Hdet|Hdet]; intros [= <- <-];
    (split; [exact El|]); unfold normal_equations.
  - pose proof (det_zero_const x E0 Hdet) as Hc.
    pose proof (sum_const _ _ Hc) as Hs.
    rewrite (dot_const_l _ _ _ El Hc).
    rewrite (dot_const_l _ _ _ eq_refl Hc) in Hxx |- *.
    unfold mean in *.
    assert (Hsx : sum x <> 0).
    { intros Hz. apply Hxx. rewrite Hz. lra. }
    split; field; lra.
  - split; field; lra.
Qed.

End fit_facts.

Module corr_facts.
Import np stats np_facts fit_facts.

Lemma dot_zero_l (a b : list R) :
  Forall (fun v => v = 0) a -> dot a b = 0.
Proof.
  intros Hall; revert b.
  induction Hall as [|u a Hu _ IH]; intros [|w b]; try reflexivity.
  rewrite dot_cons, IH, Hu. ring.
Qed.

Lemma dot_comm (a b : list R) : dot a b = dot b a.
Proof.
  revert b; induction a as [|u a IH]; intros [|w b]; try reflexivity.
  rewrite !dot_cons, IH. ring.
Qed.

(** Cauchy-Schwarz for columns of one length. *)
Lemma cauchy_schwarz (a b : list R) :
  List.length a = List.length b ->
  dot a b * dot a b <= dot a a * dot b b.
Proof.
  intros Hlen.
  destruct (Req_dec_T (dot a a) 0) as [Hz|Hnz].
  - rewrite (dot_zero_l a b) by now apply dot_self_zero.
    pose proof (dot_self_nonneg b). rewrite Hz. lra.
  - pose proof (dot_self_nonneg a) as Ha.
    pose proof (dot_self_nonneg (residuals a b (dot a b / dot a a) 0)) as Hq.
    fold (SSR a b (dot a b / dot a a) 0) in Hq.
    rewrite SSR_expand in Hq by assumption.
    assert (Hpos : 0 < dot a a) by lra.
    assert (E : dot b b - 2 * (dot a b / dot a a) * dot a b - 2 * 0 * sum b
                + dot a b / dot a a * (dot a b / dot a a) * dot a a
                + 2 * (dot a b / dot a a) * 0 * sum a + 0 * 0 * size a
                = (dot a a * dot b b - dot a b * dot a b) / dot a a)
      by (field; lra).
    rewrite E in Hq.
    apply Rmult_le_compat_r with (r := dot a a) in Hq; [|lra].
    replace ((dot a a * dot b b - dot a b * dot a b) / dot a a * dot a a)
      with (dot a a * dot b b - dot a b * dot a b) in Hq by (field; lra).
    lra.
Qed.

Lemma centered_length (a : list R) :
  List.length (centered a) = List.length a.
Proof. unfold centered. apply length_map. Qed.

Lemma clip_id (v : R) : -1 <= v <= 1 -> clip v (-1) 1 = v.
Proof.
  intros [Hl Hu]. unfold clip.
  rewrite Rmax_left by lra. rewrite Rmin_left by lra. reflexivity.
Qed.

Lemma true_divide_zero (a : R) : true_divide a 0 = None.
Proof. unfold true_divide. destruct (Req_dec_T 0 0); congruence. Qed.

Lemma true_divide_nonzero (a b : R) :
  b <> 0 -> true_divide a b = Some (a / b).
Proof. intros H. unfold true_divide. destruct (Req_dec_T b 0); congruence. Qed.

(** A quotient bounded through the squares. *)
Lemma ratio_bounded (p q : R) :
  0 < q -> p * p <= q * q -> -1 <= p / q <= 1.
Proof.
  intros Hq Hsq.
  assert (Hp : - q <= p <= q) by nra.
  split.
  - apply Rmult_le_reg_r with q; [lra|].
    replace (p / q * q) with p by (field; lra). lra.
  - apply Rmult_le_reg_r with q; [lra|].
    replace (p / q * q) with p by (field; lra). lra.
Qed.

(** numpy's route through the covariance matrix computes Pearson's
    coefficient. *)
Lemma corrcoef01_pearson (x y : list R) :
  List.length x = List.length y -> corrcoef01 x y = pearson x y.
Proof.
  intros Hlen. unfold corrcoef01, pearson.
  rewrite (proj2 (Nat.eqb_eq _ _) Hlen). cbn [negb].
  pose proof (dot_self_nonneg (centered x)) as Hxx.
  pose proof (dot_self_nonneg (centered y)) as Hyy.
  destruct x as [|u x'].
  { destruct y; [|discriminate]. cbn [sum fold_right]. rewrite size_nil.
    rewrite true_divide_zero.
    change (dot (centered []) (centered [])) with 0.
    rewrite Rmult_0_l, sqrt_0. now rewrite true_divide_zero. }
  assert (Hx : u :: x' <> []) by congruence.
  assert (Hy : y <> []) by (destruct y; [discriminate | congruence]).
  pose proof (size_pos _ Hx) as Hnx. pose proof (size_pos _ Hy) as Hny.
  rewrite !true_divide_nonzero by lra.
  fold (mean (u :: x')). fold (mean y).
  fold (centered (u :: x')). fold (centered y).
  set (X0 := centered (u :: x')) in *. set (X1 := centered y) in *.
  assert (Hcs : dot X0 X1 * dot X0 X1 <= dot X0 X0 * dot X1 X1).
  { apply cauchy_schwarz. unfold X0, X1. now rewrite !centered_length. }
  destruct x' as [|u' x''].
  { (* one sample *)
    rewrite size_cons, size_nil.
    destruct (Rle_dec (0 + 1 - 1) 0) as [_|Hc]; [|exfalso; apply Hc; lra].
    rewrite true_divide_zero.
    assert (E : dot X0 X0 = 0).
    { unfold X0, centered, mean. cbn. unfold size. cbn. field. }
    rewrite E, Rmult_0_l, sqrt_0. now rewrite true_divide_zero. }
  set (xs := u :: u' :: x'') in *.
  assert (Hf : 1 < size xs).
  { unfold xs. rewrite !size_cons. pose proof (size_nonneg x''). lra. }
  destruct (Rle_dec (size xs - 1) 0) as [Hc|_]; [exfalso; lra|].
  rewrite true_divide_nonzero by lra.
  set (w := 1 / (size xs - 1)).
  assert (Hw : 0 < w) by (apply Rdiv_lt_0_compat; lra).
  destruct (Req_dec_T (dot X0 X0) 0) as [Hz0|Hn0].
  { rewrite Hz0, !Rmult_0_l, sqrt_0. now rewrite !true_divide_zero. }
  assert (Hs0 : 0 < sqrt (dot X0 X0 * w)) by (apply sqrt_lt_R0; nra).
  rewrite true_divide_nonzero by lra.
  destruct (Req_dec_T (dot X1 X1) 0) as [Hz1|Hn1].
  { rewrite Hz1, Rmult_0_r, Rmult_0_l, sqrt_0. now rewrite !true_divide_zero. }
  assert (Hs1 : 0 < sqrt (dot X1 X1 * w)) by (apply sqrt_lt_R0; nra).
  assert (Hs : 0 < sqrt (dot X0 X0 * dot X1 X1)) by (apply sqrt_lt_R0; nra).
  rewrite !true_divide_nonzero by lra.
  assert (Hprod : sqrt (dot X0 X0 * w) * sqrt (dot X1 X1 * w)
                  = w * sqrt (dot X0 X0 * dot X1 X1)).
  { rewrite <- sqrt_mult by nra.
    replace (dot X0 X0 * w * (dot X1 X1 * w))
      with ((w * w) * (dot X0 X0 * dot X1 X1)) by ring.
    rewrite sqrt_mult by nra. rewrite sqrt_square by lra. reflexivity. }
  assert (Heq : dot X0 X1 * w / sqrt (dot X0 X0 * w) / sqrt (dot X1 X1 * w)
                = dot X0 X1 / sqrt (dot X0 X0 * dot X1 X1)).
  { replace (dot X0 X1 * w / sqrt (dot X0 X0 * w) / sqrt (dot X1 X1 * w))
      with (dot X0 X1 * w / (sqrt (dot X0 X0 * w) * sqrt (dot X1 X1 * w)))
      by (field; lra).
    rewrite Hprod. field. lra. }
  rewrite Heq. f_equal. apply clip_id.
  apply ratio_bounded; [exact Hs|].
  rewrite sqrt_sqrt by nra. exact Hcs.
Qed.

End corr_facts.

Module data_facts.
Import np stats np_facts fit_facts corr_facts linspace_facts.

Section WithGenerator.
Variable G : BitGenerator.

Lemma standard_normal_length (s : bitgen_state G) (size : nat) :
  List.length (fst (random.standard_normal G s size)) = size.
Proof.
  revert s; induction size as [|k IH]; intros s; [reflexivity|].
  cbn. destruct (next_standard_normal G s) as [z s1].
  specialize (IH s1).
  destruct (random.standard_normal G s1 k) as [zs s2].
  cbn in *. congruence.
Qed.

Lemma normal_accepts (s : bitgen_state G) (loc scale : R) (size : nat) :
  0 <= scale ->
  random.normal G s loc scale size
  = Some (map (fun z => loc + scale * z)
              (fst (random.standard_normal G s size)),
          snd (random.standard_normal G s size)).
Proof.
  intros Hs. unfold random.normal.
  destruct (Rlt_dec scale 0) as [Hneg|_]; [lra|].
  now destruct (random.standard_normal G s size).
Qed.

Lemma deviates_length (n : slider nat) : List.length (deviates G n) = value n.
Proof. apply standard_normal_length. Qed.

Lemma line_plus_length (xs es : list R) :
  List.length xs = List.length es ->
  List.length (line_plus xs es) = List.length xs.
Proof.
  intros H. unfold line_plus.
  rewrite length_map, length_combine, length_map. lia.
Qed.

(** What the body of cell 2 binds when the noise level is not negative. *)
Lemma cell_data_body_runs (n : slider nat) (sigma : slider R) :
  0 <= value sigma ->
  exists l : data_locals G,
    cell_data_body G n sigma = Some l /\
    x l = linspace 0 10 (value n) /\
    eps l = map (fun z => 0 + value sigma * z) (deviates G n) /\
    y l = line_plus (x l) (eps l) /\
    df l = {| col_x := x l; col_y := y l |}.
Proof.
  intros Hs. unfold cell_data_body.
  rewrite linspace_length, normal_accepts by assumption. cbn [fst snd].
  fold (deviates G n).
  set (xs := linspace 0 10 (value n)).
  set (es := map (fun z => 0 + value sigma * z) (deviates G n)).
  fold (line_plus xs es).
  assert (Hlen : List.length xs = List.length es).
  { unfold xs, es. now rewrite linspace_length, length_map, deviates_length. }
  unfold make_DataFrame.
  rewrite line_plus_length by assumption. rewrite Nat.eqb_refl.
  eexists. split; [reflexivity|]. cbn. repeat split; reflexivity.
Qed.


Lemma line_plus_zero (xs es : list R) :
  List.length xs = List.length es ->
  Forall (fun e => e = 0) es ->
  line_plus xs es = map (fun v => 2.5 * v + 5) xs.
Proof.
  intros Hlen Hall; revert xs Hlen.
  induction Hall as [|e es He _ IH]; intros [|v xs] Hlen; try discriminate;
    [reflexivity|].
  unfold line_plus in *. cbn. rewrite IH by (cbn in Hlen; lia).
  f_equal. subst e. ring.
Qed.

End WithGenerator.

(** *** Columns that come from [linspace] are never degenerate *)

Lemma linspace_sumsq_nonzero (num : nat) :
  (2 <= num)%nat -> dot (linspace 0 10 num) (linspace 0 10 num) <> 0.
Proof.
  intros Hn Hz. apply dot_self_zero in Hz.
  rewrite Forall_nth in Hz.
  specialize (Hz (num - 1)%nat 0).
  rewrite linspace_length, linspace_last in Hz by lia.
  specialize (Hz ltac:(lia)). lra.
Qed.

Lemma linspace_nonempty (num : nat) :
  (2 <= num)%nat -> linspace 0 10 num <> [].
Proof.
  intros Hn E. apply (f_equal (@List.length R)) in E.
  rewrite linspace_length in E. cbn in E. lia.
Qed.

Lemma linspace_det_nonzero (num : nat) :
  (2 <= num)%nat ->
  size (linspace 0 10 num) * dot (linspace 0 10 num) (linspace 0 10 num)
  - sum (linspace 0 10 num) * sum (linspace 0 10 num) <> 0.
Proof.
  intros Hn Hz.
  apply det_zero_const in Hz; [|now apply linspace_nonempty].
  rewrite Forall_nth in Hz.
  pose proof (Hz 0%nat 0) as H0. pose proof (Hz (num - 1)%nat 0) as H1.
  rewrite linspace_length in H0, H1.
  rewrite linspace_first in H0 by lia. rewrite linspace_last in H1 by lia.
  specialize (H0 ltac:(lia)). specialize (H1 ltac:(lia)). lra.
Qed.

End data_facts.

Module line_facts.
Import np stats np_facts fit_facts corr_facts linspace_facts data_facts.

Lemma sum_affine (a b : R) (xs : list R) :
  sum (map (fun v => a * v + b) xs) = a * sum xs + b * size xs.
Proof.
  induction xs as [|u xs IH].
  - cbn. unfold size; cbn. lra.
  - cbn [map]. rewrite !sum_cons, size_cons, IH. ring.
Qed.

Lemma dot_affine_r (a b : R) (xs : list R) :
  dot xs (map (fun v => a * v + b) xs) = a * dot xs xs + b * sum xs.
Proof.
  induction xs as [|u xs IH].
  - cbn. lra.
  - cbn [map]. rewrite !dot_cons, sum_cons, IH. ring.
Qed.

Lemma dot_scale_r (a : R) (us vs : list R) :
  dot us (map (fun v => a * v) vs) = a * dot us vs.
Proof.
  revert vs; induction us as [|u us IH]; intros [|v vs]; cbn [map];
    rewrite ?dot_nil_l, ?dot_nil_r; try lra.
  rewrite !dot_cons, IH. ring.
Qed.

Lemma centered_affine (a b : R) (xs : list R) :
  xs <> [] ->
  centered (map (fun v => a * v + b) xs)
  = map (fun v => a * v) (centered xs).
Proof.
  intros Hx. unfold centered, mean.
  rewrite sum_affine. unfold size. rewrite length_map. fold (size xs).
  rewrite !map_map. apply map_ext. intros v.
  pose proof (size_pos xs Hx). field. lra.
Qed.

(** Data lying exactly on a rising line: the fit returns that line and the
    correlation is one. *)
Lemma fit_of_exact_line (a b : R) (xs : list R) :
  0 < a -> xs <> [] -> dot xs xs <> 0 ->
  size xs * dot xs xs - sum xs * sum xs <> 0 ->
  polyfit1 xs (map (fun v => a * v + b) xs) = Some (a, b) /\
  corrcoef01 xs (map (fun v => a * v + b) xs) = Some 1.
Proof.
  intros Ha Hx Hxx Hdet. split.
  - unfold polyfit1. rewrite length_map, Nat.eqb_refl. cbn [negb].
    destruct (List.length xs =? 0)%nat eqn:E0.
    { apply Nat.eqb_eq in E0. destruct xs; [congruence | discriminate]. }
    destruct (Req_dec_T (dot xs xs) 0); [contradiction|].
    destruct (Req_dec_T _ 0); [contradiction|].
    rewrite sum_affine, dot_affine_r. f_equal. f_equal; field; assumption.
  - rewrite corrcoef01_pearson by now rewrite length_map.
    unfold pearson. rewrite centered_affine by assumption.
    set (X0 := centered xs).
    rewrite !dot_scale_r, (dot_comm (map _ X0) X0), dot_scale_r.
    assert (HS : 0 < dot X0 X0).
    { pose proof (det_centered xs Hx) as E. fold X0 in E.
      pose proof (dot_self_nonneg X0). pose proof (size_pos xs Hx).
      destruct (Req_dec_T (dot X0 X0) 0) as [Hz|Hz]; [|lra].
      rewrite Hz in E. lra. }
    replace (dot X0 X0 * (a * (a * dot X0 X0)))
      with ((a * dot X0 X0) * (a * dot X0 X0)) by ring.
    rewrite sqrt_square by nra.
    rewrite true_divide_nonzero by nra. f_equal. field. nra.
Qed.

(** An all-identical column makes the normal equations singular and the
    correlation undefined. *)
Lemma all_identical_const (xs : list R) (c : R) :
  all_identical (c :: xs) -> Forall (fun v => v = c) (c :: xs).
Proof.
  intros H. apply Forall_forall. intros v Hv. apply H; [exact Hv | now left].
Qed.

Lemma degenerate_all_identical (xs : list R) :
  degenerate xs -> all_identical xs.
Proof.
  intros [Hlen|H]; [|exact H].
  destruct xs as [|u [|w xs]]; cbn in Hlen; try lia.
  - intros ? ? [].
  - intros p q [<-|[]] [<-|[]]. reflexivity.
Qed.

Lemma degenerate_det_zero (xs : list R) :
  degenerate xs -> size xs * dot xs xs - sum xs * sum xs = 0.
Proof.
  intros H. apply degenerate_all_identical in H.
  destruct xs as [|c xs]; [cbn; unfold size; cbn; lra|].
  apply all_identical_const in H.
  rewrite (dot_const_l _ _ _ eq_refl H), (sum_const _ _ H). ring.
Qed.

Lemma degenerate_corrcoef (xs ys : list R) :
  degenerate xs -> corrcoef01 xs ys = None.
Proof.
  intros H.
  destruct (Nat.eq_dec (List.length xs) (List.length ys)) as [Hlen|Hlen].
  2:{ unfold corrcoef01. apply Nat.eqb_neq in Hlen. now rewrite Hlen. }
  rewrite corrcoef01_pearson by assumption. unfold pearson.
  assert (E : dot (centered xs) (centered xs) = 0).
  { destruct xs as [|c xs]; [reflexivity|].
    pose proof (degenerate_det_zero _ H) as Hd.
    rewrite <- det_centered in Hd by congruence.
    pose proof (size_pos (c :: xs) ltac:(congruence)). nra. }
  rewrite E, Rmult_0_l, sqrt_0. apply true_divide_zero.
Qed.

End line_facts.

Module format_facts.
Import numerals.

Lemma round_half_even_error (v : R) :
  Rabs (IZR (round_half_even v) - v) <= 1 / 2.
Proof.
  unfold round_half_even.
  pose proof (Zfloor_bound v) as [Hlo Hhi].
  destruct (Rlt_dec (v - IZR (Zfloor v)) (1 / 2)) as [H1|H1].
  - apply Rabs_le. lra.
  - destruct (Rlt_dec (1 / 2) (v - IZR (Zfloor v))) as [H2|H2].
    + rewrite plus_IZR. apply Rabs_le. lra.
    + destruct (Z.even (Zfloor v)); [|rewrite plus_IZR]; apply Rabs_le; lra.
Qed.

Lemma round_half_even_nonneg (v : R) :
  0 <= v -> (0 <= round_half_even v)%Z.
Proof.
  intros Hv. unfold round_half_even.
  assert (H0 : (0 <= Zfloor v)%Z) by now apply Zfloor_lub.
  destruct (Rlt_dec _ _); [exact H0|].
  destruct (Rlt_dec _ _); [lia|].
  destruct (Z.even _); lia.
Qed.

Lemma round_half_even_ratio_correct (p q : Z) :
  (0 < q)%Z ->
  round_half_even (IZR p / IZR q) = round_half_even_ratio p q.
Proof.
  intros Hq. unfold round_half_even, round_half_even_ratio.
  assert (HqR : 0 < IZR q) by now apply IZR_lt.
  pose proof (Z.div_mod p q ltac:(lia)) as Hdm.
  pose proof (Z.mod_pos_bound p q Hq) as [Hr0 Hr1].
  assert (Hfrac : IZR p / IZR q = IZR (p / q) + IZR (p mod q) / IZR q).
  { rewrite Hdm at 1. rewrite plus_IZR, mult_IZR. field. lra. }
  assert (Hfl : Zfloor (IZR p / IZR q) = (p / q)%Z).
  { apply Zfloor_eq. rewrite Hfrac.
    assert (0 <= IZR (p mod q) / IZR q < 1).
    { split.
      - apply Rmult_le_pos; [now apply IZR_le | left; now apply Rinv_0_lt_compat].
      - apply Rmult_lt_reg_r with (IZR q); [lra|].
        replace (IZR (p mod q) / IZR q * IZR q) with (IZR (p mod q))
          by (field; lra).
        rewrite Rmult_1_l. now apply IZR_lt. }
    lra. }
  rewrite Hfl.
  replace (IZR p / IZR q - IZR (p / q)) with (IZR (p mod q) / IZR q)
    by (rewrite Hfrac; ring).
  assert (Hlt : forall a : Z,
             IZR a / IZR q < 1 / 2 <-> (2 * a < q)%Z).
  { intros a. split; intros H.
    - apply lt_IZR. rewrite mult_IZR.
      apply Rmult_lt_compat_r with (r := IZR q) in H; [|lra].
      replace (IZR a / IZR q * IZR q) with (IZR a) in H by (field; lra).
      lra.
    - apply IZR_lt in H. rewrite mult_IZR in H.
      apply Rmult_lt_reg_r with (IZR q); [lra|].
      replace (IZR a / IZR q * IZR q) with (IZR a) by (field; lra).
      lra. }
  assert (Hgt : forall a : Z,
             1 / 2 < IZR a / IZR q <-> (q < 2 * a)%Z).
  { intros a. split; intros H.
    - apply lt_IZR. rewrite mult_IZR.
      apply Rmult_lt_compat_r with (r := IZR q) in H; [|lra].
      replace (IZR a / IZR q * IZR q) with (IZR a) in H by (field; lra).
      lra.
    - apply IZR_lt in H. rewrite mult_IZR in H.
      apply Rmult_lt_reg_r with (IZR q); [lra|].
      replace (IZR a / IZR q * IZR q) with (IZR a) by (field; lra).
      lra. }
  destruct (Rlt_dec (IZR (p mod q) / IZR q) (1 / 2)) as [H1|H1].
  - apply Hlt in H1. apply Z.ltb_lt in H1. now rewrite H1.
  - assert (E1 : (2 * (p mod q) <? q)%Z = false).
    { apply Z.ltb_ge. apply Z.nlt_ge. intros H. apply H1. now apply Hlt. }
    rewrite E1.
    destruct (Rlt_dec (1 / 2) (IZR (p mod q) / IZR q)) as [H2|H2].
    + apply Hgt in H2. apply Z.ltb_lt in H2. now rewrite H2.
    + assert (E2 : (q <? 2 * (p mod q))%Z = false).
      { apply Z.ltb_ge. apply Z.nlt_ge. intros H. apply H2. now apply Hgt. }
      now rewrite E2.
Qed.

Lemma format_fixed_ratio_correct (prec : nat) (p q : Z) :
  (0 < q)%Z ->
  format_fixed prec (IZR p / IZR q) = format_fixed_ratio prec p q.
Proof.
  intros Hq. unfold format_fixed, format_fixed_ratio.
  assert (HqR : 0 < IZR q) by now apply IZR_lt.
  assert (Habs : Rabs (IZR p / IZR q) * 10 ^ prec
                 = IZR (Z.abs p * 10 ^ Z.of_nat prec) / IZR q).
  { rewrite mult_IZR, <- pow_IZR, abs_IZR.
    unfold Rdiv. rewrite Rabs_mult, (Rabs_right (/ IZR q)); [ring|].
    left. now apply Rinv_0_lt_compat. }
  rewrite Habs, round_half_even_ratio_correct by assumption.
  f_equal.
  destruct (Rlt_dec (IZR p / IZR q) 0) as [Hn|Hn];
    destruct (p <? 0)%Z eqn:E; try reflexivity; exfalso.
  - apply Z.ltb_ge in E. apply IZR_le in E.
    assert (0 <= IZR p / IZR q).
    { apply Rmult_le_pos; [lra | left; now apply Rinv_0_lt_compat]. }
    lra.
  - apply Z.ltb_lt in E. apply IZR_lt in E. apply Hn.
    apply Rmult_lt_reg_r with (IZR q); [lra|].
    replace (IZR p / IZR q * IZR q) with (IZR p) by (field; lra). lra.
Qed.

End format_facts.

Module numeral_facts.
Import numerals format_facts.
Local Open Scope string_scope.

Lemma append_assoc (a b c : string) : (a ++ b) ++ c = a ++ (b ++ c).
Proof. induction a as [|ch a IH]; cbn; [reflexivity | now rewrite IH]. Qed.

Lemma append_length (a b : string) :
  String.length (a ++ b) = (String.length a + String.length b)%nat.
Proof. induction a as [|ch a IH]; cbn; [reflexivity | now rewrite IH]. Qed.

Lemma all_digits_append (a b : string) :
  all_digits (a ++ b) = all_digits a && all_digits b.
Proof.
  induction a as [|ch a IH]; cbn; [reflexivity|].
  now rewrite IH, andb_assoc.
Qed.

Lemma is_digit_digit_char (k : Z) :
  (0 <= k < 10)%Z -> is_digit (digit_char k) = true.
Proof.
  intros Hk. unfold digit_char.
  assert (Hcases : exists j : nat, (j < 10)%nat /\ Z.to_nat k = j)
    by (exists (Z.to_nat k); lia).
  destruct Hcases as (j & Hj & ->).
  do 10 (destruct j as [|j]; [reflexivity|]). lia.
Qed.

Lemma low_digits_length (prec : nat) (m : Z) :
  String.length (low_digits prec m) = prec.
Proof.
  revert m; induction prec as [|k IH]; intros m; cbn; [reflexivity|].
  rewrite append_length, IH. cbn. lia.
Qed.

Lemma low_digits_all_digits (prec : nat) (m : Z) :
  all_digits (low_digits prec m) = true.
Proof.
  revert m; induction prec as [|k IH]; intros m; cbn [low_digits];
    [reflexivity|].
  rewrite all_digits_append, IH. cbn [all_digits andb].
  rewrite is_digit_digit_char; [reflexivity|].
  apply Z.mod_pos_bound. lia.
Qed.

Lemma uint_all_digits (d : Decimal.uint) :
  all_digits (NilEmpty.string_of_uint d) = true.
Proof. induction d; cbn; auto. Qed.

Lemma uint_nonempty (d : Decimal.uint) :
  NilZero.string_of_uint d <> "".
Proof. destruct d; cbn; discriminate. Qed.

Lemma uint_zero_all_digits (d : Decimal.uint) :
  all_digits (NilZero.string_of_uint d) = true.
Proof.
  destruct d; try reflexivity; apply (uint_all_digits (_ d)).
Qed.

Lemma str_int_all_digits (z : Z) :
  (0 <= z)%Z -> all_digits (str_int z) = true /\ str_int z <> "".
Proof.
  intros Hz. unfold str_int.
  destruct z as [|p|p]; [split; [reflexivity | discriminate] | | lia].
  cbn [Z.to_int NilZero.string_of_int].
  split; [apply uint_zero_all_digits | apply uint_nonempty].
Qed.

Lemma digits_value_from_append (a b : string) (acc : Z) :
  digits_value_from acc (a ++ b)
  = digits_value_from (digits_value_from acc a) b.
Proof.
  revert acc; induction a as [|c a IH]; intros acc; cbn; [reflexivity|].
  apply IH.
Qed.

Lemma digit_char_value (k : Z) :
  (0 <= k < 10)%Z -> (Z.of_nat (nat_of_ascii (digit_char k)) - 48)%Z = k.
Proof.
  intros Hk. unfold digit_char.
  rewrite nat_ascii_embedding by lia. lia.
Qed.

Lemma low_digits_value (prec : nat) (m acc : Z) :
  digits_value_from acc (low_digits prec m)
  = (acc * 10 ^ Z.of_nat prec + m mod 10 ^ Z.of_nat prec)%Z.
Proof.
  revert m; induction prec as [|k IH]; intros m.
  - cbn [low_digits digits_value_from]. rewrite Z.mod_1_r. cbn. lia.
  - cbn [low_digits]. rewrite digits_value_from_append, IH.
    cbn [digits_value_from].
    rewrite digit_char_value by (apply Z.mod_pos_bound; lia).
    rewrite Nat2Z.inj_succ, Z.pow_succ_r by lia.
    rewrite (Z.rem_mul_r m 10 (10 ^ Z.of_nat k))
      by (try apply Z.pow_pos_nonneg; lia).
    lia.
Qed.

Lemma uint_value_from (d : Decimal.uint) (acc : positive) :
  digits_value_from (Z.pos acc) (NilEmpty.string_of_uint d)
  = Z.pos (Pos.of_uint_acc d acc).
Proof.
  revert acc; induction d; intros acc; cbn [NilEmpty.string_of_uint
    digits_value_from Pos.of_uint_acc]; try reflexivity;
    rewrite <- IHd; f_equal;
    match goal with
    | |- context [Z.of_nat (nat_of_ascii ?c)] =>
        let v := eval vm_compute in (Z.of_nat (nat_of_ascii c)) in
        change (Z.of_nat (nat_of_ascii c)) with v
    end; lia.
Qed.

Lemma uint_value (d : Decimal.uint) :
  digits_value (NilEmpty.string_of_uint d) = Z.of_N (Pos.of_uint d).
Proof.
  unfold digits_value.
  induction d; cbn [NilEmpty.string_of_uint digits_value_from Pos.of_uint];
    try reflexivity; try exact IHd;
    match goal with
    | |- digits_value_from ?k _ = _ =>
        let k' := eval vm_compute in k in change k with k'
    end; now rewrite uint_value_from.
Qed.

Lemma str_int_value (z : Z) : (0 <= z)%Z -> digits_value (str_int z) = z.
Proof.
  intros Hz. unfold str_int.
  destruct z as [|p|p]; [reflexivity | | lia].
  cbn [Z.to_int NilZero.string_of_int].
  replace (NilZero.string_of_uint (Pos.to_uint p))
    with (NilEmpty.string_of_uint (Pos.to_uint p)).
  - now rewrite uint_value, DecimalPos.Unsigned.of_to.
  - unfold NilZero.string_of_uint. destruct (Pos.to_uint p) eqn:E; try reflexivity.
    exfalso. pose proof (DecimalPos.Unsigned.of_to p) as H.
    rewrite E in H. discriminate.
Qed.

(** [format_fixed] writes a numeral with exactly [prec] decimals whose
    value is [v] rounded there. *)
Lemma format_fixed_renders (prec : nat) (v : R) :
  (0 < prec)%nat -> renders prec v (format_fixed prec v).
Proof.
  intros Hp. unfold renders, format_fixed.
  set (m := round_half_even (Rabs v * 10 ^ prec)).
  assert (Hm : (0 <= m)%Z).
  { apply round_half_even_nonneg. apply Rmult_le_pos.
    - apply Rabs_pos.
    - apply pow_le. lra. }
  assert (Hpow : (0 < 10 ^ Z.of_nat prec)%Z) by (apply Z.pow_pos_nonneg; lia).
  assert (Hq : (0 <= m / 10 ^ Z.of_nat prec)%Z) by (apply Z.div_pos; lia).
  destruct (str_int_all_digits _ Hq) as [Hd Hne].
  exists (str_int (m / 10 ^ Z.of_nat prec)), (low_digits prec m).
  split; [unfold fixed_digits; destruct prec; [lia | reflexivity]|].
  split; [exact Hne|]. split; [exact Hd|].
  split; [apply low_digits_all_digits|].
  split; [apply low_digits_length|].
  unfold digits_value. rewrite digits_value_from_append.
  fold (digits_value (str_int (m / 10 ^ Z.of_nat prec))).
  rewrite str_int_value, low_digits_value by assumption.
  rewrite Z.mul_comm, <- Z.div_mod by lia.
  apply round_half_even_error.
Qed.

Lemma round_half_even_IZR (z : Z) : round_half_even (IZR z) = z.
Proof.
  unfold round_half_even. rewrite ZfloorZ.
  destruct (Rlt_dec _ _) as [_|H]; [reflexivity | exfalso; apply H; lra].
Qed.

End numeral_facts.

Module session_facts.
Import np stats np_facts fit_facts corr_facts linspace_facts data_facts
  line_facts.

Lemma n_reachable_bounds (n : slider nat) :
  n_reachable n -> (50 <= value n <= 1000)%nat.
Proof. intros (_ & _ & _ & k & Hk & Hle). lia. Qed.

Lemma sigma_reachable_nonneg (sigma : slider R) :
  sigma_reachable sigma -> 0 <= value sigma.
Proof.
  intros (_ & _ & _ & k & Hk & _). rewrite Hk.
  pose proof (pos_INR k). lra.
Qed.

Lemma slider_eq {A : Type} (s1 s2 : slider A) :
  start s1 = start s2 -> stop s1 = stop s2 -> step s1 = step s2 ->
  value s1 = value s2 -> s1 = s2.
Proof. destruct s1, s2; cbn; congruence. Qed.

Lemma n_reachable_eq (n1 n2 : slider nat) :
  n_reachable n1 -> n_reachable n2 -> value n1 = value n2 -> n1 = n2.
Proof.
  intros (A1 & B1 & C1 & _) (A2 & B2 & C2 & _) Hv.
  apply slider_eq; congruence.
Qed.

Lemma sigma_reachable_eq (s1 s2 : slider R) :
  sigma_reachable s1 -> sigma_reachable s2 -> value s1 = value s2 -> s1 = s2.
Proof.
  intros (A1 & B1 & C1 & _) (A2 & B2 & C2 & _) Hv.
  apply slider_eq; congruence.
Qed.

(** From two samples on, the fit of a [linspace] column is defined. *)
Lemma polyfit1_linspace (num : nat) (ys : list R) :
  (2 <= num)%nat -> List.length ys = num ->
  exists a b : R, polyfit1 (linspace 0 10 num) ys = Some (a, b).
Proof.
  intros Hn Hlen. unfold polyfit1.
  rewrite linspace_length, Hlen, Nat.eqb_refl. cbn [negb].
  destruct (num =? 0)%nat eqn:E; [apply Nat.eqb_eq in E; lia|].
  destruct (Req_dec_T _ 0) as [Hz|_];
    [now apply linspace_sumsq_nonzero in Hz|].
  destruct (Req_dec_T _ 0) as [Hz|_];
    [now apply linspace_det_nonzero in Hz|].
  eauto.
Qed.

Section Sessions.
Variable G : BitGenerator.

Lemma cell_data_runs (n : slider nat) (sigma : slider R) :
  0 <= value sigma ->
  exists l : data_locals G,
    cell_data_body G n sigma = Some l /\
    cell_data G n sigma = Some (df l) /\
    col_x (df l) = linspace 0 10 (value n) /\
    col_y (df l)
    = line_plus (linspace 0 10 (value n))
        (map (fun z => 0 + value sigma * z) (deviates G n)) /\
    List.length (eps l) = value n /\
    List.length (col_y (df l)) = value n.
Proof.
  intros Hs.
  destruct (cell_data_body_runs G n sigma Hs) as (l & Hl & Hx & He & Hy & Hd).
  exists l. unfold cell_data. rewrite Hl. cbn [option_map].
  rewrite Hd. cbn [col_x col_y]. rewrite Hy, He, Hx.
  repeat split; try reflexivity.
  - now rewrite length_map, deviates_length.
  - rewrite line_plus_length; [apply linspace_length|].
    now rewrite linspace_length, length_map, deviates_length.
Qed.

(** With both sliders in range every cell of the cycle returns. *)
Lemma recompute_runs (n : slider nat) (sigma : slider R) :
  (2 <= value n)%nat -> 0 <= value sigma ->
  exists (d : DataFrame) (fit : FitResult),
    cell_data G n sigma = Some d /\ cell_fit d = Some fit /\
    recompute G n sigma
    = Some {| out_df := d; out_fit := fit;
              out_report := cell_report (intercept fit) n (r fit) sigma
                              (slope fit);
              out_fig := cell_plot d (y_hat fit) |}.
Proof.
  intros Hn Hs.
  destruct (cell_data_runs n sigma Hs) as (l & _ & Hd & Hx & _ & _ & Hylen).
  destruct (polyfit1_linspace (value n) (col_y (df l)) Hn Hylen) as (a & b & Hp).
  exists (df l). eexists. unfold recompute, cell_fit.
  rewrite Hd, Hx, Hp. repeat split; reflexivity.
Qed.

(** *** What every session satisfies *)

Lemma app_run_ok : session_ok (app_run G).
Proof.
  unfold session_ok, app_run, run_cells, cell_controls.
  cbn [ui_n ui_sigma cell2 shown executions fst snd].
  split; [|split; [|split; [reflexivity | split; [reflexivity | lia]]]].
  - unfold n_reachable. cbn [start stop step value].
    repeat (split; [reflexivity|]).
    exists 5%nat. split; [reflexivity | lia].
  - unfold sigma_reachable. cbn [start stop step value].
    repeat (split; [reflexivity|]).
    exists 10%nat. split; [cbn; lra | lia].
Qed.

Lemma handle_ok (s : Session G) (e : event) :
  session_ok s -> session_ok (handle G s e).
Proof.
  intros Hok. pose proof Hok as (Hn & Hs & Hcell & Hshown & Hexec).
  pose proof Hn as (An & Bn & Cn & _).
  pose proof Hs as (As & Bs & Cs & _).
  destruct e as [k|k|]; cbn [handle].
  - destruct (k <=? 50)%nat eqn:E; [|exact Hok].
    apply Nat.leb_le in E.
    unfold session_ok, run_cells.
    cbn [ui_n ui_sigma cell2 shown executions].
    split; [exact Hn|].
    split; [|split; [reflexivity | split; [reflexivity | lia]]].
    unfold sigma_reachable. cbn [start stop step value set_value].
    repeat (split; [assumption|]).
    exists k. rewrite As, Cs. split; [reflexivity | lia].
  - destruct (k <=? 19)%nat eqn:E; [|exact Hok].
    apply Nat.leb_le in E.
    unfold session_ok, run_cells.
    cbn [ui_n ui_sigma cell2 shown executions].
    split; [|split; [exact Hs
                    | split; [reflexivity | split; [reflexivity | lia]]]].
    unfold n_reachable. cbn [start stop step value set_value].
    repeat (split; [assumption|]).
    exists k. rewrite An, Cn. split; [reflexivity | lia].
  - unfold session_ok, run_cells.
    cbn [ui_n ui_sigma cell2 shown executions].
    split; [exact Hn|]. split; [exact Hs|].
    split; [reflexivity|]. split; [reflexivity | lia].
Qed.

Lemma replay_ok (history : list event) : session_ok (replay G history).
Proof.
  unfold replay.
  induction history as [|e history IH] using rev_ind.
  - apply app_run_ok.
  - rewrite fold_left_app. cbn [fold_left]. now apply handle_ok.
Qed.

Lemma replay_snoc (history : list event) (e : event) :
  replay G (history ++ [e]) = handle G (replay G history) e.
Proof. unfold replay. now rewrite fold_left_app. Qed.

End Sessions.
End session_facts.

(** ** The claims about the data and the fit *)

Import np stats numerals.
Import np_facts linspace_facts fit_facts corr_facts data_facts line_facts
  session_facts.

Lemma nth_standard_normal (G : BitGenerator) (s : bitgen_state G)
    (size i : nat) (d : R) :
  (i < size)%nat ->
  nth i (fst (random.standard_normal G s size)) d
  = fst (next_standard_normal G
           (Nat.iter i (fun t => snd (next_standard_normal G t)) s)).
Proof.
  revert s i; induction size as [|k IH]; intros s i Hi; [lia|].
  cbn [random.standard_normal].
  destruct (next_standard_normal G s) as [z s1] eqn:Es.
  specialize (IH s1).
  destruct (random.standard_normal G s1 k) as [zs s2].
  cbn [fst] in *.
  destruct i as [|i].
  - cbn [nth]. unfold Nat.iter. cbn [nat_rect]. now rewrite Es.
  - cbn [nth]. rewrite IH by lia.
    rewrite Nat.iter_succ_r, Es. reflexivity.
Qed.

Lemma snd_standard_normal (G : BitGenerator) (s : bitgen_state G)
    (size : nat) :
  snd (random.standard_normal G s size)
  = Nat.iter size (fun t => snd (next_standard_normal G t)) s.
Proof.
  revert s; induction size as [|k IH]; intros s; [reflexivity|].
  cbn [random.standard_normal].
  destruct (next_standard_normal G s) as [z s1] eqn:Es.
  specialize (IH s1).
  destruct (random.standard_normal G s1 k) as [zs s2].
  cbn [snd] in *. rewrite IH, Nat.iter_succ_r, Es. reflexivity.
Qed.

(** The noise of cell 2 in terms of the generator alone: term [i] is
    [0 + sigma] times the deviate the generator yields after [i] draws from
    seed 42, and [rng] ends [n] draws past the seed. *)
Lemma cell_data_body_draws (G : BitGenerator) (n : slider nat)
    (sigma : slider R) (l : data_locals G) :
  cell_data_body G n sigma = Some l ->
  List.length (eps l) = value n /\
  (forall i : nat, (i < value n)%nat ->
     nth i (eps l) 0
     = 0 + value sigma
           * fst (next_standard_normal G
                    (Nat.iter i (fun s => snd (next_standard_normal G s))
                       (seed_state G 42)))) /\
  rng l
  = Nat.iter (value n) (fun s => snd (next_standard_normal G s))
      (seed_state G 42).
Proof.
  unfold cell_data_body, random.normal, random.default_rng.
  rewrite linspace_length.
  destruct (Rlt_dec (value sigma) 0) as [|_]; [discriminate|].
  pose proof (standard_normal_length G (seed_state G 42) (value n)) as Hlen.
  pose proof (snd_standard_normal G (seed_state G 42) (value n)) as Hsnd.
  pose proof (fun i d => nth_standard_normal G (seed_state G 42) (value n) i d)
    as Hnth.
  destruct (random.standard_normal G (seed_state G 42) (value n))
    as [zs s'].
  cbn [fst snd] in *.
  destruct (make_DataFrame _ _) as [d|]; [|discriminate].
  intros [= <-]. cbn [eps rng].
  split; [now rewrite length_map|].
  split; [|exact Hsnd].
  intros i Hi.
  rewrite (nth_map_default _ _ _ 0 0) by lia.
  now rewrite Hnth.
Qed.



(** C4: for [n >= 2] and [sigma >= 0] cell 2 returns a frame whose [x] has
    exactly [n] elements, is non-decreasing, starts at 0 and ends at 10, and
    whose [y] has [n] elements too; cell 3 then returns, and the [y_hat] of
    any frame it accepts is as long as that frame's [x]. *)
Theorem dataset_shape_invariants (G : BitGenerator) (n : slider nat)
    (sigma : slider R) :
  (2 <= value n)%nat -> 0 <= value sigma ->
  exists (d : DataFrame) (fit : FitResult),
    cell_data G n sigma = Some d /\
    List.length (col_x d) = value n /\
    List.length (col_y d) = value n /\
    (forall i j : nat, (i <= j)%nat -> (j < value n)%nat ->
       nth i (col_x d) 0 <= nth j (col_x d) 0) /\
    nth 0 (col_x d) 0 = 0 /\
    nth (value n - 1) (col_x d) 0 = 10 /\
    cell_fit d = Some fit /\
    List.length (y_hat fit) = List.length (col_x d) /\
    (forall (d' : DataFrame) (fit' : FitResult),
       cell_fit d' = Some fit' ->
       List.length (y_hat fit') = List.length (col_x d')).
Proof.
  intros Hn Hs.
  destruct (recompute_runs G n sigma Hn Hs) as (d & fit & Hd & Hfit & _).
  destruct (cell_data_runs G n sigma Hs) as (l & _ & Hd' & Hx & _ & _ & Hylen).
  assert (d = df l) as -> by congruence.
  assert (Hhat : forall (d' : DataFrame) (fit' : FitResult),
             cell_fit d' = Some fit' ->
             List.length (y_hat fit') = List.length (col_x d')).
  { intros d' fit' H. unfold cell_fit in H.
    destruct (polyfit1 (col_x d') (col_y d')) as [c|]; [|discriminate].
    injection H as <-. cbn [y_hat]. apply length_map. }
  exists (df l), fit. rewrite Hx.
  split; [exact Hd|].
  split; [apply linspace_length|].
  split; [exact Hylen|].
  split; [intros i j Hij Hj; now apply linspace_monotone|].
  split; [now apply linspace_first|].
  split; [now apply linspace_last|].
  split; [exact Hfit|].
  split; [rewrite <- Hx; now apply Hhat | exact Hhat].
Qed.

Lemma dataset_shape_invariants_witness :
  exists d : DataFrame,
    cell_data counting_bitgen (fst cell_controls) (snd cell_controls) = Some d /\
    List.length (col_x d) = 300%nat /\ List.length (col_y d) = 300%nat.
Proof.
  destruct (dataset_shape_invariants counting_bitgen
              (fst cell_controls) (snd cell_controls))
    as (d & fit & Hd & Hx & Hy & _).
  - cbn. lia.
  - cbn. lra.
  - exists d. split; [exact Hd|]. split; [exact Hx | exact Hy].
Defined.

Lemma fit_is_least_squares_aux (d : DataFrame) (fit : FitResult) :
  cell_fit d = Some fit ->
  List.length (col_x d) = List.length (col_y d) /\
  r fit = pearson (col_x d) (col_y d).
Proof.
  intros H. unfold cell_fit in H.
  destruct (polyfit1 (col_x d) (col_y d)) as [[a b]|] eqn:Hp; [|discriminate].
  injection H as <-. cbn [r].
  destruct (polyfit1_normal_equations _ _ _ _ Hp) as [Hlen _].
  split; [exact Hlen | now apply corrcoef01_pearson].
Qed.

(** ** The claims about the report and the figure *)

Import format_facts numeral_facts.

Lemma format_one_decimal_of_1 : format_fixed 1 1.0 = "1.0"%string.
Proof.
  replace 1.0 with (IZR 10 / IZR 10) by lra.
  rewrite format_fixed_ratio_correct by lia. reflexivity.
Qed.

Lemma format_examples :
  format_fixed 2 (IZR 1 / IZR 8) = "0.12"%string /\
  format_fixed 2 (IZR 3 / IZR 8) = "0.38"%string /\
  format_fixed 2 (IZR (-1) / IZR 1000) = "-0.00"%string /\
  format_fixed 3 (IZR 9995 / IZR 10000) = "1.000"%string /\
  format_fixed 2 2.5 = "2.50"%string.
Proof.
  replace 2.5 with (IZR 5 / IZR 2) by lra.
  rewrite !format_fixed_ratio_correct by lia.
  repeat split; reflexivity.
Qed.

Lemma report_contains_sample_size (a b c s : string) :
  substring "Sample size**: **300" (report_markdown a b c "300" s).
Proof.
  exists ("
### Relationship summary
- **Model**: $y = " ++ a ++ "x + " ++ b ++ "$
- **Correlation**: $r = " ++ c ++ "$
- **")%string.
  exists ("**
- **Noise std (σ)**: **" ++ s ++ "**

_As σ increases, the points spread further from the line; correlation and the stability of the fitted slope typically decrease._
")%string.
  unfold report_markdown.
  repeat (rewrite !append_assoc; cbn [append]).
  reflexivity.
Qed.

Lemma report_contains_noise_level (a b c n_s : string) :
  substring "σ)**: **1.0**" (report_markdown a b c n_s "1.0").
Proof.
  exists ("
### Relationship summary
- **Model**: $y = " ++ a ++ "x + " ++ b ++ "$
- **Correlation**: $r = " ++ c ++ "$
- **Sample size**: **" ++ n_s ++ "**
- **Noise std (")%string.
  exists ("

_As σ increases, the points spread further from the line; correlation and the stability of the fitted slope typically decrease._
")%string.
  unfold report_markdown.
  repeat (rewrite !append_assoc; cbn [append]).
  reflexivity.
Qed.

Lemma nan_is_no_numeral (prec : nat) (v : R) : ~ renders prec v "nan".
Proof.
  intros (ip & fp & E & Hne & Hip & _).
  destruct ip as [|c ip]; [congruence|].
  cbn [all_digits] in Hip. apply andb_prop in Hip as [Hc _].
  destruct (Rlt_dec v 0); cbn in E; injection E as E _; subst c;
    discriminate.
Qed.

(** C6, as stated for every input, does not hold: on the frame with
    [x = [3, 3]] and [y = [1, 2]] the fit cell returns with an undefined
    correlation, and with an undefined [r] (here beside slope 0.25 and
    intercept 0.75) the report cell prints [nan] where three decimals are
    expected; [nan] is no rendering of any number. *)
Lemma report_of_nan_counterexample :
  (exists fit : FitResult,
     cell_fit {| col_x := [3; 3]; col_y := [1; 2] |} = Some fit /\
     r fit = None) /\
  cell_report (3 / 4) (fst cell_controls) None (snd cell_controls) (1 / 4)
  = "
### Relationship summary
- **Model**: $y = 0.25x + 0.75$
- **Correlation**: $r = nan$
- **Sample size**: **300**
- **Noise std (σ)**: **1.0**

_As σ increases, the points spread further from the line; correlation and the stability of the fitted slope typically decrease._
"%string /\
  ~ (exists v : R, renders 3 v "nan").
Proof.
  split; [|split].
  - unfold cell_fit, polyfit1. cbn [col_x col_y List.length Nat.eqb negb].
    destruct (Req_EM_T _ 0) as [E|_]; [cbn in E; lra|].
    destruct (Req_EM_T _ 0) as [_|E];
      [|exfalso; apply E; cbn; unfold size; cbn; lra].
    eexists. split; [reflexivity|]. cbn [r].
    apply degenerate_corrcoef.
    right. intros u v [<-|[<-|[]]] [<-|[<-|[]]]; reflexivity.
  - unfold cell_report, format_float. cbn [fst snd cell_controls value].
    rewrite format_one_decimal_of_1.
    rewrite !format_fixed_ratio_correct by lia. reflexivity.
  - intros [v H]. exact (nan_is_no_numeral 3 v H).
Qed.

(** C6, amended: the report is the fixed Markdown text around five
    fields.  Slope and intercept are written with exactly 2 decimals and
    the noise level with exactly 1, each the value rounded to that many
    decimals; [n] is written as the plain integer numeral; [r] is written
    with exactly 3 decimals when it is a number and as [nan] when it is
    undefined.  With the sliders at [n = 300] and [sigma = 1.0] the text
    contains "Sample size**: **300" and "σ)**: **1.0**". *)
Theorem report_formats_numbers (intercept : R) (n : slider nat)
    (r : option R) (sigma : slider R) (slope : R) :
  (exists slope_s intercept_s r_s n_s sigma_s : string,
     cell_report intercept n r sigma slope
     = ("
### Relationship summary
- **Model**: $y = " ++ slope_s ++ "x + " ++ intercept_s ++ "$
- **Correlation**: $r = " ++ r_s ++ "$
- **Sample size**: **" ++ n_s ++ "**
- **Noise std (σ)**: **" ++ sigma_s ++ "**

_As σ increases, the points spread further from the line; correlation and the stability of the fitted slope typically decrease._
")%string /\
     renders 2 slope slope_s /\
     renders 2 intercept intercept_s /\
     match r with
     | Some v => renders 3 v r_s
     | None => r_s = "nan"%string
     end /\
     all_digits n_s = true /\ n_s <> EmptyString /\
     digits_value n_s = Z.of_nat (value n) /\
     renders 1 (value sigma) sigma_s) /\
  substring "Sample size**: **300"
    (cell_report intercept (set_value n 300%nat) r
       (set_value sigma 1.0) slope) /\
  substring "σ)**: **1.0**"
    (cell_report intercept (set_value n 300%nat) r
       (set_value sigma 1.0) slope).
Proof.
  split.
  - exists (format_fixed 2 slope), (format_fixed 2 intercept),
      (format_float 3 r), (str_int (Z.of_nat (value n))),
      (format_fixed 1 (value sigma)).
    destruct (str_int_all_digits (Z.of_nat (value n)) ltac:(lia)) as [Hd Hne].
    split; [reflexivity|].
    split; [apply format_fixed_renders; lia|].
    split; [apply format_fixed_renders; lia|].
    split.
    { destruct r as [v|]; cbn [format_float];
        [apply format_fixed_renders; lia | reflexivity]. }
    split; [exact Hd|]. split; [exact Hne|].
    split; [apply str_int_value; lia|].
    apply format_fixed_renders. lia.
  - unfold cell_report. cbn [value set_value].
    rewrite format_one_decimal_of_1.
    change (str_int (Z.of_nat 300)) with "300"%string.
    split; [apply report_contains_sample_size
           | apply report_contains_noise_level].
Qed.

(** C8: the figure has exactly two series over the frame's [x]: the
    observations [(x, y)] drawn as markers, then the fit [(x, y_hat)] drawn
    as a line.  It has a title, both axes are labelled, and its legend is
    horizontal, anchored by its bottom right corner at the right edge just
    above the top of the plot. *)
Theorem plot_has_two_series (d : DataFrame) (fitted : list R) :
  data (cell_plot d fitted)
  = [ {| trace_x := col_x d; trace_y := col_y d;
         mode := "markers"; name := "observations" |};
      {| trace_x := col_x d; trace_y := fitted;
         mode := "lines"; name := "fit" |} ] /\
  title (layout (cell_plot d fitted))
  = Some "Linear relationship with controllable noise"%string /\
  xaxis_title (layout (cell_plot d fitted)) = Some "x"%string /\
  yaxis_title (layout (cell_plot d fitted)) = Some "y"%string /\
  exists lg : Legend,
    legend (layout (cell_plot d fitted)) = Some lg /\
    orientation lg = "h"%string /\
    xanchor lg = "right"%string /\ legend_x lg = 1 /\
    yanchor lg = "bottom"%string /\ 1 < legend_y lg.
Proof.
  repeat (split; [reflexivity|]).
  eexists. split; [reflexivity|]. cbn.
  repeat (split; [reflexivity|]). lra.
Qed.

(** ** The claims about reproducibility *)

Lemma same_controls_eq (G : BitGenerator) (h1 h2 : list event) :
  same_controls (replay G h1) (replay G h2) ->
  ui_n (replay G h1) = ui_n (replay G h2) /\
  ui_sigma (replay G h1) = ui_sigma (replay G h2).
Proof.
  intros [Hn Hs].
  destruct (replay_ok G h1) as (N1 & S1 & _).
  destruct (replay_ok G h2) as (N2 & S2 & _).
  split; [now apply n_reachable_eq | now apply sigma_reachable_eq].
Qed.

(** C9: each execution of cell 2 seeds its own generator with 42, so the
    frame a session shows is a function of the two slider values alone:
    after any two histories of slider moves and re-runs that leave the
    sliders at equal values, both sessions show the frame cell 2 computes
    from those values, with [x] the [linspace] column and [y] built from
    the first [n] deviates of a generator fresh from seed 42. *)
Theorem dataset_function_of_sliders (G : BitGenerator)
    (h1 h2 : list event) :
  same_controls (replay G h1) (replay G h2) ->
  exists d : DataFrame,
    cell_data G (ui_n (replay G h1)) (ui_sigma (replay G h1)) = Some d /\
    option_map out_df (shown (replay G h1)) = Some d /\
    option_map out_df (shown (replay G h2)) = Some d /\
    col_x d = linspace 0 10 (value (ui_n (replay G h1))) /\
    col_y d
    = line_plus (col_x d)
        (map (fun z => 0 + value (ui_sigma (replay G h1)) * z)
             (deviates G (ui_n (replay G h1)))).
Proof.
  intros Hsame.
  destruct (same_controls_eq G h1 h2 Hsame) as [En Es].
  destruct (replay_ok G h1) as (N1 & S1 & _ & Hshown1 & _).
  destruct (replay_ok G h2) as (_ & _ & _ & Hshown2 & _).
  rewrite <- En, <- Es in Hshown2.
  pose proof (n_reachable_bounds _ N1) as Hb.
  pose proof (sigma_reachable_nonneg _ S1) as Hpos.
  assert (H2 : (2 <= value (ui_n (replay G h1)))%nat) by lia.
  destruct (recompute_runs G _ _ H2 Hpos) as (d & fit & Hd & _ & Hrec).
  destruct (cell_data_runs G (ui_n (replay G h1)) _ Hpos)
    as (l & _ & Hd' & Hx & Hy & _).
  assert (d = df l) as -> by congruence.
  exists (df l). rewrite Hshown1, Hshown2, Hrec. cbn [option_map out_df].
  rewrite Hy, Hx. repeat split; try reflexivity. exact Hd.
Qed.

Lemma dataset_function_of_sliders_witness :
  exists d : DataFrame,
    option_map out_df (shown (replay counting_bitgen [])) = Some d /\
    option_map out_df
      (shown (replay counting_bitgen [MoveN 2; MoveSigma 20; Rerun;
                                      MoveN 5; MoveSigma 10])) = Some d.
Proof.
  destruct (dataset_function_of_sliders counting_bitgen []
              [MoveN 2; MoveSigma 20; Rerun; MoveN 5; MoveSigma 10])
    as (d & _ & H1 & H2 & _).
  - split; [reflexivity|]. cbn. lra.
  - exists d. split; [exact H1 | exact H2].
Defined.

Lemma draws_after_rerun :
  draws (replay counting_bitgen []) = 300%nat /\
  draws (replay counting_bitgen [Rerun]) = 600%nat.
Proof.
  unfold replay. cbn [fold_left handle].
  unfold app_run, run_cells. cbn [ui_n ui_sigma executions draws].
  cbv zeta.
  destruct (cell_data_runs counting_bitgen (fst cell_controls)
              (snd cell_controls)) as (l & Hl & _ & _ & _ & He & _);
    [cbn; lra|].
  rewrite Hl, He. split; reflexivity.
Qed.

(** C2, as the specification words it, does not hold: the session that
    only started and the session that re-ran the cells once more have the
    sliders at the same values and drew the same noise in their last
    execution of cell 2, yet cell 2 ran once in the first and twice in the
    second, and 300 deviates had been drawn in the first against 600 in the
    second. *)
Lemma draw_history_counterexample :
  same_controls (replay counting_bitgen []) (replay counting_bitgen [Rerun]) /\
  noise_of_run (replay counting_bitgen [])
  = noise_of_run (replay counting_bitgen [Rerun]) /\
  executions (replay counting_bitgen []) = 1%nat /\
  executions (replay counting_bitgen [Rerun]) = 2%nat /\
  draws (replay counting_bitgen []) = 300%nat /\
  draws (replay counting_bitgen [Rerun]) = 600%nat /\
  ~ reproducible_only_with_equal_draw_history counting_bitgen.
Proof.
  destruct draws_after_rerun as [D1 D2].
  split; [split; reflexivity|].
  do 3 (split; [reflexivity|]).
  split; [exact D1|]. split; [exact D2|].
  intros H. specialize (H [] [Rerun]).
  destruct H as [Hexec _]; [split; reflexivity | reflexivity |].
  cbn in Hexec. discriminate.
Qed.

(** C2, amended: for fixed slider values re-running cell 2 regenerates the
    same noise draws whatever was executed before and however many deviates
    were drawn before, because each execution draws from its own generator
    seeded with 42; nothing is shared between executions. *)
Theorem noise_reproducible_across_histories (G : BitGenerator)
    (h1 h2 : list event) :
  same_controls (replay G h1) (replay G h2) ->
  exists e : list R,
    noise_of_run (replay G h1) = Some e /\
    noise_of_run (replay G h2) = Some e /\
    e = map (fun z => 0 + value (ui_sigma (replay G h1)) * z)
          (fst (random.standard_normal G (seed_state G 42)
                  (value (ui_n (replay G h1))))).
Proof.
  intros Hsame.
  destruct (same_controls_eq G h1 h2 Hsame) as [En Es].
  destruct (replay_ok G h1) as (_ & S1 & Hc1 & _).
  destruct (replay_ok G h2) as (_ & _ & Hc2 & _).
  pose proof (sigma_reachable_nonneg _ S1) as Hpos.
  destruct (cell_data_body_runs G (ui_n (replay G h1)) _ Hpos)
    as (l & Hl & _ & He & _).
  exists (eps l). unfold noise_of_run. rewrite Hc1, Hc2, <- En, <- Es, Hl.
  repeat split; try reflexivity. exact He.
Qed.

Lemma noise_reproducible_across_histories_witness :
  executions (replay counting_bitgen []) = 1%nat /\
  executions (replay counting_bitgen [Rerun; MoveN 3; MoveN 5]) = 4%nat /\
  noise_of_run (replay counting_bitgen [])
  = noise_of_run (replay counting_bitgen [Rerun; MoveN 3; MoveN 5]).
Proof.
  destruct (noise_reproducible_across_histories counting_bitgen []
              [Rerun; MoveN 3; MoveN 5]) as (e & H1 & H2 & _).
  - split; reflexivity.
  - split; [reflexivity|]. split; [reflexivity|]. congruence.
Defined.

(** ** What the slider ranges guarantee for the fit *)

Lemma all_identical_centered (ys : list R) :
  ys <> [] ->
  (dot (centered ys) (centered ys) = 0 <-> all_identical ys).
Proof.
  intros Hy. split.
  - intros H. apply centered_zero_const in H.
    rewrite Forall_forall in H.
    intros u v Hu Hv. rewrite (H u Hu), (H v Hv). reflexivity.
  - intros H.
    pose proof (degenerate_det_zero ys (or_intror H)) as Hd.
    rewrite <- det_centered in Hd by assumption.
    pose proof (size_pos ys Hy). nra.
Qed.

(** X10: with both sliders in range the [x] column has two distinct values, the
    normal equations are not singular and the fit cell returns a slope and
    an intercept; the correlation is undefined exactly when every [y] is
    the same number, which the noise decides. *)
Theorem sliders_keep_fit_defined (G : BitGenerator) (n : slider nat)
    (sigma : slider R) :
  n_reachable n -> sigma_reachable sigma ->
  exists (d : DataFrame) (fit : FitResult),
    cell_data G n sigma = Some d /\ cell_fit d = Some fit /\
    nth 0 (col_x d) 0 <> nth (value n - 1) (col_x d) 0 /\
    ~ degenerate (col_x d) /\
    size (col_x d) * dot (col_x d) (col_x d)
    - sum (col_x d) * sum (col_x d) <> 0 /\
    (r fit = None <-> all_identical (col_y d)).
Proof.
  intros Hn Hs.
  pose proof (n_reachable_bounds n Hn) as Hb.
  pose proof (sigma_reachable_nonneg sigma Hs) as Hpos.
  assert (H2 : (2 <= value n)%nat) by lia.
  destruct (recompute_runs G n sigma H2 Hpos) as (d & fit & Hd & Hfit & _).
  destruct (cell_data_runs G n sigma Hpos) as (l & _ & Hd' & Hx & _ & _ & Hylen).
  assert (d = df l) as -> by congruence.
  exists (df l), fit.
  pose proof (linspace_det_nonzero (value n) H2) as Hdet.
  split; [exact Hd|]. split; [exact Hfit|]. rewrite Hx.
  split; [rewrite linspace_first, linspace_last by lia; lra|].
  split; [intros Hdeg; now apply degenerate_det_zero in Hdeg|].
  split; [exact Hdet|].
  destruct (fit_is_least_squares_aux (df l) fit Hfit) as [Hlen Hr].
  rewrite Hr, Hx. unfold pearson.
  set (xs := linspace 0 10 (value n)) in *. set (ys := col_y (df l)) in *.
  assert (Hxne : xs <> []) by now apply linspace_nonempty.
  assert (Hyne : ys <> []).
  { intros E. rewrite E in Hylen. cbn in Hylen. lia. }
  pose proof (dot_self_nonneg (centered xs)) as Hxx.
  pose proof (dot_self_nonneg (centered ys)) as Hyy.
  assert (Hxpos : 0 < dot (centered xs) (centered xs)).
  { pose proof (det_centered xs Hxne) as E. pose proof (size_pos xs Hxne).
    destruct (Req_dec_T (dot (centered xs) (centered xs)) 0) as [Hz|]; [|lra].
    rewrite Hz in E. lra. }
  rewrite <- all_identical_centered by assumption.
  split.
  - intros H. unfold true_divide in H.
    destruct (Req_dec_T _ 0) as [Hz|]; [|discriminate].
    apply sqrt_eq_0 in Hz; [|nra].
    apply Rmult_integral in Hz. destruct Hz; lra.
  - intros ->. rewrite Rmult_0_r, sqrt_0. apply true_divide_zero.
Qed.

(** ** The exact-arithmetic model at work *)

Module examples.

Lemma linspace_three : linspace 0 10 3 = [0; 5; 10].
Proof.
  unfold linspace. cbn [Nat.sub Nat.ltb Nat.leb].
  destruct (Req_EM_T _ 0); cbn; repeat f_equal; lra.
Qed.

Lemma polyfit1_three_points : polyfit1 [0; 1; 2] [1; 3; 5] = Some (2, 1).
Proof.
  replace [1; 3; 5] with (map (fun v => 2 * v + 1) [0; 1; 2])
    by (cbn; repeat f_equal; lra).
  apply fit_of_exact_line.
  - lra.
  - discriminate.
  - cbn. lra.
  - cbn. unfold size; cbn. lra.
Qed.

Lemma polyfit1_constant_column :
  polyfit1 [3; 3] [1; 2] = Some (1 / 4, 3 / 4) /\
  corrcoef01 [3; 3] [1; 2] = None /\
  polyfit1 [0] [5] = None /\
  polyfit1 [] [] = None.
Proof.
  split; [|split; [|split; [|reflexivity]]].
  - unfold polyfit1. cbn [List.length Nat.eqb negb].
    destruct (Req_dec_T _ 0) as [E|_]; [cbn in E; lra|].
    destruct (Req_dec_T _ 0) as [_|E];
      [|exfalso; apply E; cbn; unfold size; cbn; lra].
    cbn. unfold size; cbn. f_equal. f_equal; lra.
  - apply degenerate_corrcoef. right.
    intros u v [<-|[<-|[]]] [<-|[<-|[]]]; reflexivity.
  - unfold polyfit1. cbn [List.length Nat.eqb negb].
    destruct (Req_dec_T _ 0) as [_|E]; [reflexivity|].
    exfalso. apply E. cbn. lra.
Qed.

End examples.

(** * Further properties of the cells *)

(** ** Cell 2 *)

Lemma cell_data_some_nonneg (G : BitGenerator) (n : slider nat)
    (sigma : slider R) (d : DataFrame) :
  cell_data G n sigma = Some d -> 0 <= value sigma.
Proof.
  unfold cell_data, cell_data_body, random.normal.
  destruct (Rlt_dec (value sigma) 0) as [Hneg|Hpos]; [discriminate|].
  intros _. lra.
Qed.

(** X2: from two samples on the [x] column is strictly increasing and stays
    within [[0, 10]]. *)
Theorem x_strictly_increasing_in_range (G : BitGenerator) (n : slider nat)
    (sigma : slider R) (d : DataFrame) :
  (2 <= value n)%nat -> cell_data G n sigma = Some d ->
  (forall i j : nat, (i < j)%nat -> (j < value n)%nat ->
     nth i (col_x d) 0 < nth j (col_x d) 0) /\
  (forall i : nat, (i < value n)%nat -> 0 <= nth i (col_x d) 0 <= 10).
Proof.
  intros Hn Hd.
  pose proof (cell_data_some_nonneg G n sigma d Hd) as Hpos.
  destruct (cell_data_runs G n sigma Hpos) as (l & _ & Hd' & Hx & _).
  assert (d = df l) as -> by congruence. rewrite Hx.
  assert (Hdiv : 0 < INR (value n - 1)) by (apply lt_0_INR; lia).
  assert (Hstep : 0 < (10 - 0) / INR (value n - 1))
    by (apply Rdiv_lt_0_compat; lra).
  split.
  - intros i j Hij Hj. rewrite !nth_linspace by lia.
    assert (INR i < INR j) by (apply lt_INR; lia). nra.
  - intros i Hi. rewrite nth_linspace by lia.
    assert (H0 : 0 <= INR i) by apply pos_INR.
    assert (H1 : INR i <= INR (value n - 1)) by (apply le_INR; lia).
    split; [nra|].
    replace 10 with (0 + INR (value n - 1) * ((10 - 0) / INR (value n - 1)))
      at 2 by (field; lra).
    nra.
Qed.

Lemma x_strictly_increasing_in_range_witness :
  exists d : DataFrame,
    cell_data counting_bitgen (fst cell_controls) (snd cell_controls) = Some d /\
    nth 0 (col_x d) 0 < nth 1 (col_x d) 0.
Proof.
  destruct (cell_data_runs counting_bitgen (fst cell_controls)
              (snd cell_controls)) as (l & _ & Hd & _); [cbn; lra|].
  exists (df l). split; [exact Hd|].
  apply (proj1 (x_strictly_increasing_in_range counting_bitgen
                  (fst cell_controls) (snd cell_controls) (df l)
                  ltac:(cbn; lia) Hd)); cbn; lia.
Defined.

(** X3: moving the noise slider leaves [x] and the generator's draws
    alone: at two noise levels cell 2 binds the same [x], leaves the
    generator in the same state, and noise term [i] is [0 + sigma1 * z] at
    the one level and [0 + sigma2 * z] at the other for one and the same
    deviate [z], the one the generator yields after [i] draws from seed
    42. *)
Theorem noise_level_rescales_same_deviates (G : BitGenerator)
    (n : slider nat) (sigma1 sigma2 : slider R) :
  0 <= value sigma1 -> 0 <= value sigma2 ->
  exists l1 l2 : data_locals G,
    cell_data_body G n sigma1 = Some l1 /\
    cell_data_body G n sigma2 = Some l2 /\
    x l1 = x l2 /\ rng l1 = rng l2 /\
    forall i : nat, (i < value n)%nat ->
      exists z : R,
        z = fst (next_standard_normal G
                   (Nat.iter i (fun s => snd (next_standard_normal G s))
                      (seed_state G 42))) /\
        nth i (eps l1) 0 = 0 + value sigma1 * z /\
        nth i (eps l2) 0 = 0 + value sigma2 * z.
Proof.
  intros H1 H2.
  destruct (cell_data_body_runs G n sigma1 H1) as (l1 & Hl1 & Hx1 & _).
  destruct (cell_data_body_runs G n sigma2 H2) as (l2 & Hl2 & Hx2 & _).
  destruct (cell_data_body_draws G n sigma1 l1 Hl1) as (_ & Hd1 & Hr1).
  destruct (cell_data_body_draws G n sigma2 l2 Hl2) as (_ & Hd2 & Hr2).
  exists l1, l2. split; [exact Hl1|]. split; [exact Hl2|].
  split; [congruence|]. split; [congruence|].
  intros i Hi. eexists. split; [reflexivity|].
  split; [now apply Hd1 | now apply Hd2].
Qed.

Lemma noise_level_rescales_same_deviates_witness :
  exists l1 l2 : data_locals counting_bitgen,
    cell_data_body counting_bitgen (fst cell_controls) (snd cell_controls)
    = Some l1 /\
    cell_data_body counting_bitgen (fst cell_controls)
      (set_value (snd cell_controls) 2) = Some l2 /\
    x l1 = x l2 /\
    nth 0 (eps l1) 0 = 0 + 1.0 * INR 42 /\
    nth 0 (eps l2) 0 = 0 + 2 * INR 42.
Proof.
  destruct (noise_level_rescales_same_deviates counting_bitgen
              (fst cell_controls) (snd cell_controls)
              (set_value (snd cell_controls) 2))
    as (l1 & l2 & H1 & H2 & Hx & _ & Hz).
  - cbn. lra.
  - cbn. lra.
  - destruct (Hz 0%nat ltac:(cbn; lia)) as (z & -> & E1 & E2).
    exists l1, l2. repeat split; assumption.
Defined.

(** X16: with the noise level at 0 every noise term is zero, whatever the
    generator draws, and [y] is [2.5 * x + 5] sample by sample. *)
Theorem noise_free_data_on_line (G : BitGenerator) (n : slider nat)
    (sigma : slider R) :
  value sigma = 0 ->
  exists l : data_locals G,
    cell_data_body G n sigma = Some l /\
    List.length (eps l) = value n /\
    Forall (fun e => e = 0) (eps l) /\
    y l = map (fun v => 2.5 * v + 5) (x l).
Proof.
  intros H0.
  destruct (cell_data_body_runs G n sigma ltac:(lra))
    as (l & Hl & Hx & He & Hy & _).
  assert (Hz : Forall (fun e => e = 0) (eps l)).
  { rewrite He. apply Forall_forall. intros e Hin.
    apply in_map_iff in Hin. destruct Hin as (z & <- & _). rewrite H0. ring. }
  assert (Hlen : List.length (eps l) = value n)
    by (rewrite He, length_map; apply deviates_length).
  exists l. split; [exact Hl|]. split; [exact Hlen|]. split; [exact Hz|].
  rewrite Hy. apply line_plus_zero; [|exact Hz].
  now rewrite Hx, linspace_length, Hlen.
Qed.

Lemma noise_free_data_on_line_witness :
  exists l : data_locals counting_bitgen,
    cell_data_body counting_bitgen (fst cell_controls)
      (set_value (snd cell_controls) 0) = Some l /\
    y l = map (fun v => 2.5 * v + 5) (x l).
Proof.
  destruct (noise_free_data_on_line counting_bitgen (fst cell_controls)
              (set_value (snd cell_controls) 0) eq_refl)
    as (l & Hl & _ & _ & Hy).
  exists l. split; [exact Hl | exact Hy].
Defined.

Lemma standard_normal_firstn (G : BitGenerator) (s : bitgen_state G)
    (k m : nat) :
  (k <= m)%nat ->
  fst (random.standard_normal G s k)
  = firstn k (fst (random.standard_normal G s m)).
Proof.
  revert s m; induction k as [|k IH]; intros s m Hkm; [reflexivity|].
  destruct m as [|m]; [lia|].
  cbn [random.standard_normal].
  destruct (next_standard_normal G s) as [z s1].
  specialize (IH s1 m ltac:(lia)).
  destruct (random.standard_normal G s1 k) as [zs s2].
  destruct (random.standard_normal G s1 m) as [zs' s2'].
  cbn [fst firstn] in *. now rewrite IH.
Qed.

(** X4: raising the sample size only appends noise: at one noise level the
    noise vector for [n1] samples is the beginning of the one for any
    [n2 >= n1] samples. *)
Theorem noise_for_fewer_samples_is_prefix (G : BitGenerator)
    (n1 n2 : slider nat) (sigma : slider R) :
  (value n1 <= value n2)%nat -> 0 <= value sigma ->
  exists l1 l2 : data_locals G,
    cell_data_body G n1 sigma = Some l1 /\
    cell_data_body G n2 sigma = Some l2 /\
    eps l1 = firstn (value n1) (eps l2).
Proof.
  intros Hle Hs.
  destruct (cell_data_body_runs G n1 sigma Hs) as (l1 & Hl1 & _ & He1 & _).
  destruct (cell_data_body_runs G n2 sigma Hs) as (l2 & Hl2 & _ & He2 & _).
  exists l1, l2. split; [exact Hl1|]. split; [exact Hl2|].
  rewrite He1, He2, firstn_map. f_equal.
  unfold deviates. now apply standard_normal_firstn.
Qed.

Lemma noise_for_fewer_samples_is_prefix_witness :
  exists l1 l2 : data_locals counting_bitgen,
    cell_data_body counting_bitgen (set_value (fst cell_controls) 50%nat)
      (snd cell_controls) = Some l1 /\
    cell_data_body counting_bitgen (fst cell_controls) (snd cell_controls)
    = Some l2 /\
    eps l1 = firstn 50 (eps l2).
Proof.
  destruct (noise_for_fewer_samples_is_prefix counting_bitgen
              (set_value (fst cell_controls) 50%nat) (fst cell_controls)
              (snd cell_controls))
    as (l1 & l2 & H1 & H2 & He).
  - cbn. lia.
  - cbn. lra.
  - exists l1, l2. repeat split; assumption.
Defined.

Lemma sliders_keep_fit_defined_witness :
  exists (d : DataFrame) (fit : FitResult),
    cell_data counting_bitgen (fst cell_controls) (snd cell_controls) = Some d /\
    cell_fit d = Some fit /\ ~ degenerate (col_x d).
Proof.
  destruct (sliders_keep_fit_defined counting_bitgen (fst cell_controls)
              (snd cell_controls)) as (d & fit & Hd & Hfit & _ & Hdeg & _).
  - repeat (split; [reflexivity|]). exists 5%nat. split; [reflexivity | cbn; lia].
  - repeat (split; [reflexivity|]). exists 10%nat. split; [cbn; lra | lia].
  - exists d, fit. repeat split; assumption.
Defined.

(** ** Cell 4 *)

Local Open Scope string_scope.

Lemma keep_digits_append (a b : string) :
  keep_digits (a ++ b) = keep_digits a ++ keep_digits b.
Proof.
  induction a as [|c a IH]; [reflexivity|].
  cbn [append keep_digits]. destruct (is_digit c); cbn [append]; now rewrite IH.
Qed.

Lemma keep_digits_all_digits (s : string) :
  all_digits s = true -> keep_digits s = s.
Proof.
  induction s as [|c s IH]; [reflexivity|].
  cbn [all_digits keep_digits]. intros H. apply andb_prop in H as [Hc Hs].
  now rewrite Hc, IH.
Qed.

(** The digits of a rendered number, read as an integer, are the number
    scaled by [10 ^ prec] up to half a unit. *)
Lemma renders_digits (prec : nat) (v : R) (s : string) :
  renders prec v s ->
  Rabs (IZR (digits_value (keep_digits s)) - Rabs v * 10 ^ prec) <= 1 / 2.
Proof.
  intros (ip & fp & -> & _ & Hip & Hfp & _ & Herr).
  rewrite !keep_digits_append.
  rewrite (keep_digits_all_digits ip Hip), (keep_digits_all_digits fp Hfp).
  destruct (Rlt_dec v 0); exact Herr.
Qed.

Lemma renders_sign (prec : nat) (v : R) (s : string) :
  renders prec v s ->
  (v < 0 <-> exists rest : string, s = String "-" rest).
Proof.
  intros (ip & fp & -> & Hne & Hip & _).
  destruct (Rlt_dec v 0) as [Hneg|Hpos].
  - split; [intros _; eexists; reflexivity | intros _; exact Hneg].
  - split; [contradiction|]. intros [rest E]. exfalso.
    destruct ip as [|c ip]; [congruence|].
    cbn in E. injection E as -> _. cbn in Hip. discriminate.
Qed.

Lemma Rabs_le_bounds (a b : R) : (Rabs a <= b -> - b <= a <= b)%R.
Proof. unfold Rabs. destruct (Rcase_abs a); lra. Qed.

(** X12: two values that print alike with [prec] decimals differ by at most one
    unit of the last printed place. *)
Theorem equal_numerals_are_close (prec : nat) (a b : R) :
  (0 < prec)%nat ->
  format_fixed prec a = format_fixed prec b ->
  Rabs (a - b) * 10 ^ prec <= 1.
Proof.
  intros Hp E.
  pose proof (format_fixed_renders prec a Hp) as Ra.
  pose proof (format_fixed_renders prec b Hp) as Rb.
  pose proof (renders_digits _ _ _ Ra) as Da.
  pose proof (renders_digits _ _ _ Rb) as Db.
  pose proof (renders_sign _ _ _ Ra) as Sa.
  pose proof (renders_sign _ _ _ Rb) as Sb.
  rewrite E in Da, Sa.
  set (m := IZR (digits_value (keep_digits (format_fixed prec b)))) in *.
  assert (Hpow : 0 < 10 ^ prec) by (apply pow_lt; lra).
  assert (Hsign : a < 0 <-> b < 0) by (rewrite Sa, Sb; reflexivity).
  apply Rabs_le_bounds in Da. apply Rabs_le_bounds in Db.
  assert (Habs : Rabs (a - b) = Rabs (Rabs a - Rabs b)).
  { destruct (Rlt_dec a 0) as [Ha|Ha].
    - assert (Hb : b < 0) by now apply Hsign.
      rewrite (Rabs_left a), (Rabs_left b) by assumption.
      replace (- a - - b) with (- (a - b)) by ring. now rewrite Rabs_Ropp.
    - assert (Hb : ~ b < 0) by (intros Hb; now apply Ha, Hsign).
      rewrite (Rabs_right a), (Rabs_right b) by lra. reflexivity. }
  rewrite Habs.
  rewrite <- (Rabs_right (10 ^ prec)) at 1 by lra.
  rewrite <- Rabs_mult. apply Rabs_le. lra.
Qed.

Lemma equal_numerals_are_close_witness :
  Rabs (IZR 1 / IZR 8 - IZR 3 / IZR 25) * 10 ^ 2 <= 1.
Proof.
  apply (equal_numerals_are_close 2 (IZR 1 / IZR 8) (IZR 3 / IZR 25)).
  - lia.
  - rewrite !format_fixed_ratio_correct by lia. reflexivity.
Defined.

(** ** Cell 5 *)

(** X15: in every cycle that completes, both series of the figure are drawn over
    the [n] samples of [x]: the observations carry the [n] values of [y],
    and the fit carries [slope * x + intercept], the returned line. *)
Theorem figure_series_match_frame (G : BitGenerator) (n : slider nat)
    (sigma : slider R) (out : Outputs) :
  recompute G n sigma = Some out ->
  exists observations fitted : Scatter,
    data (out_fig out) = [observations; fitted] /\
    trace_x observations = linspace 0 10 (value n) /\
    trace_x fitted = linspace 0 10 (value n) /\
    trace_y observations = col_y (out_df out) /\
    List.length (trace_y observations) = value n /\
    trace_y fitted
    = map (fun v => (slope (out_fit out) * v + intercept (out_fit out))%R)
        (linspace 0 10 (value n)) /\
    List.length (trace_y fitted) = value n.
Proof.
  intros H. unfold recompute in H.
  destruct (cell_data G n sigma) as [d|] eqn:Hd; [|discriminate].
  destruct (cell_fit d) as [fit|] eqn:Hfit; [|discriminate].
  injection H as <-. cbn [out_fig out_df out_fit].
  pose proof (cell_data_some_nonneg G n sigma d Hd) as Hpos.
  destruct (cell_data_runs G n sigma Hpos) as (l & _ & Hd' & Hx & _ & _ & Hylen).
  assert (d = df l) as -> by congruence.
  assert (Hhat : y_hat fit
                 = map (fun v => (slope fit * v + intercept fit)%R)
                     (col_x (df l))).
  { unfold cell_fit in Hfit.
    destruct (polyfit1 (col_x (df l)) (col_y (df l))); [|discriminate].
    now injection Hfit as <-. }
  eexists. eexists. split; [reflexivity|]. cbn [trace_x trace_y].
  rewrite Hhat, Hx, length_map, linspace_length.
  repeat split; try reflexivity. exact Hylen.
Qed.

Lemma figure_series_match_frame_witness :
  exists (out : Outputs) (observations fitted : Scatter),
    recompute counting_bitgen (fst cell_controls) (snd cell_controls)
    = Some out /\
    data (out_fig out) = [observations; fitted] /\
    List.length (trace_y observations) = 300%nat /\
    List.length (trace_y fitted) = 300%nat.
Proof.
  destruct (recompute_runs counting_bitgen (fst cell_controls)
              (snd cell_controls)) as (d & fit & _ & _ & Hrec);
    [cbn; lia | cbn; lra |].
  destruct (figure_series_match_frame counting_bitgen (fst cell_controls)
              (snd cell_controls) _ Hrec)
    as (o & f & Hdata & _ & _ & _ & Ho & _ & Hf).
  eexists. exists o, f. split; [exact Hrec|].
  split; [exact Hdata|]. split; [exact Ho | exact Hf].
Defined.
